(** * xsh: the command execution engine

    A shallow embedding of [src/shell.h], [src/shell.c] and [src/main.c]:
    the word splitter [parse_command], the alias table, the job table, the
    path search of [find_command], the builtins and [execute_command].

    Conventions of the embedding.
    - A C string is a [string] (without the character 0); a pointer is
      modelled by the value it points to, so the [NULL] checks on entry of
      the C functions (which return without any effect) have no
      counterpart.  [malloc] and [strdup] are taken to succeed.
    - An [int] status is a [Z].
    - A NULL-terminated [char **] vector is a [list string]; the entry at
      index [length args] is the terminating NULL ([nth_error] gives
      [None] there).
    - The fixed arrays [config.aliases] and [config.jobs] together with
      their counters are lists; the counter is the length of the list.
    - The global variables are the fields of one record, [Shell], which
      every function takes and returns.
    - What the process prints is appended to a trace of [output] records.
    - The operating system is reached through the record [Kernel].
    - A run in which the program writes past the end of a buffer has no
      defined result: the functions that can reach such a write return an
      [option], and [None] stands for undefined behaviour. *)

From Stdlib Require Import String Ascii List ZArith Lia Bool Arith DecimalString.
Import ListNotations.

Local Open Scope string_scope.
Local Open Scope list_scope.

(** ** Constants of [shell.h] *)

Definition MAX_ARGS : nat := 512.
Definition MAX_PATH_LENGTH : nat := 4096.
Definition MAX_ALIASES : nat := 100.

Definition EXIT_SUCCESS : Z := 0.
Definition EXIT_FAILURE : Z := 1.
Definition EXIT_NOT_FOUND : Z := 127.

(** ** Characters and [strtok] *)

Definition chr (n : nat) : ascii := ascii_of_nat n.

(** The delimiter set [" \t\n\r"] of [parse_command]. *)
Definition is_blank (c : ascii) : bool :=
  (c =? " ")%char || (c =? chr 9)%char || (c =? chr 10)%char || (c =? chr 13)%char.

(** The delimiter set [":"] of [find_command]. *)
Definition is_colon (c : ascii) : bool := (c =? ":")%char.

(** [isspace] in the C locale: space, and the controls 9 to 13. *)
Definition isspace (c : ascii) : bool :=
  (c =? " ")%char || ((9 <=? nat_of_ascii c)%nat && (nat_of_ascii c <=? 13)%nat).

Definition snoc (s : string) (c : ascii) : string := s ++ String c "".

Definition flush (tok : string) (rest : list string) : list string :=
  match tok with
  | "" => rest
  | _ => tok :: rest
  end.

(** The sequence of tokens that successive calls of [strtok (s, delims)],
    [strtok (NULL, delims)], ... return: the maximal runs of characters that
    are not delimiters.  [tok] is the token being scanned. *)
Fixpoint strtok_from (delim : ascii -> bool) (tok : string) (s : string) : list string :=
  match s with
  | "" => flush tok []
  | String c s' =>
      if delim c then flush tok (strtok_from delim "" s')
      else strtok_from delim (snoc tok c) s'
  end.

Definition strtok (delim : ascii -> bool) (s : string) : list string :=
  strtok_from delim "" s.

(** ** [parse_command] *)

(** The loop [while (token && *argc < MAX_ARGS - 1)]: [toks] is what
    [strtok] still has to return, [args] the entries stored so far. *)
Fixpoint parse_loop (toks : list string) (args : list string) (argc : nat)
  : list string * nat :=
  match toks with
  | [] => (args, argc)
  | token :: toks' =>
      if (argc <? MAX_ARGS - 1)%nat
      then parse_loop toks' (args ++ [token]) (S argc)
      else (args, argc)
  end.

(** [parse_command (command, &argc)]: the vector and the value left in
    [argc]. *)
Definition parse_command_argc (command : string) : list string * nat :=
  parse_loop (strtok is_blank command) [] 0.

Definition parse_command (command : string) : list string :=
  fst (parse_command_argc command).

(** [args[i]] of a NULL-terminated vector. *)
Definition arg_at (args : list string) (i : nat) : option string :=
  nth_error args i.


(** ** Data structures of [shell.h] *)

(** [Alias]. *)
Record Alias := mkAlias { name : string; value : string }.

(** [Job].  [add_job] leaves the fields [start_time] and [cwd] unset and
    nothing reads them; they are left out. *)
Record Job := mkJob { pid : Z; command : string; status : Z; running : bool }.

(** [Config], restricted to the two tables: [aliases] holds
    [config.aliases[0 .. alias_count - 1]], [jobs] holds
    [config.jobs[0 .. job_count - 1]]. *)
Record Config := mkConfig { aliases : list Alias; jobs : list Job }.

Definition alias_count (c : Config) : nat := length (aliases c).
Definition job_count (c : Config) : nat := length (jobs c).

(** ** The process and its surroundings *)

(** What the shell writes.  [PrintError msg] is one call of [print_error]:
    the line ["Error: msg"] on the standard error stream.  [Execv path argv]
    records the program image started in a child process. *)
Inductive output :=
| Printf (text : string)
| PrintError (msg : string)
| Execv (path : string) (argv : list string).

(** A child of the shell as [waitpid] sees it. *)
Inductive pstate :=
| PRunning
| PZombie (wstatus : Z)
| PNone.

(** How [fork], [execv] and the wait loop of [execute_external] end:
    [fork] fails; or [execv] returns in the child, which then exits with
    [EXIT_NOT_FOUND]; or the program runs and the loop ends with the wait
    status [wstatus] (children that never terminate are outside the
    model). *)
Inductive spawn_result :=
| ForkFailed (err : string)
| ExecFailed (err : string)
| Terminated (wstatus : Z).

(** How [getcwd (buf, size)] ends: it fills the buffer with the working
    directory; or it fails with the text [err] of [strerror (errno)], and
    the buffer then holds [contents], which the system does not
    specify (they are taken to be a C string). *)
Inductive getcwd_result :=
| GetcwdOk
| GetcwdError (err : string) (contents : string).

(** The system calls the engine uses, as functions of the working
    directory of the process.  [sys_chdir cwd path] is the new working
    directory or the text of [strerror (errno)]; [sys_getcwd cwd buf] is
    the end of [getcwd] on a buffer that holds [buf]. *)
Record Kernel := mkKernel {
  sys_getenv : string -> option string;
  sys_access_x : string -> string -> bool;
  sys_chdir : string -> string -> string + string;
  sys_getcwd : string -> string -> getcwd_result;
  sys_spawn : string -> string -> list string -> spawn_result
}.

(** The global variables [current_dir], [running] and [config], the
    history list of readline, the output written so far, the working
    directory of the process and its children. *)
Record Shell := mkShell {
  current_dir : string;
  running_flag : bool;
  config : Config;
  history : list string;
  trace : list output;
  cwd : string;
  procs : Z -> pstate
}.

Definition set_current_dir (d : string) (sh : Shell) : Shell :=
  mkShell d (running_flag sh) (config sh) (history sh) (trace sh) (cwd sh) (procs sh).

Definition set_running (b : bool) (sh : Shell) : Shell :=
  mkShell (current_dir sh) b (config sh) (history sh) (trace sh) (cwd sh) (procs sh).

Definition set_config (c : Config) (sh : Shell) : Shell :=
  mkShell (current_dir sh) (running_flag sh) c (history sh) (trace sh) (cwd sh) (procs sh).

Definition set_history (h : list string) (sh : Shell) : Shell :=
  mkShell (current_dir sh) (running_flag sh) (config sh) h (trace sh) (cwd sh) (procs sh).

Definition set_cwd (d : string) (sh : Shell) : Shell :=
  mkShell (current_dir sh) (running_flag sh) (config sh) (history sh) (trace sh) d (procs sh).

Definition set_procs (p : Z -> pstate) (sh : Shell) : Shell :=
  mkShell (current_dir sh) (running_flag sh) (config sh) (history sh) (trace sh) (cwd sh) p.

Definition emit (o : list output) (sh : Shell) : Shell :=
  mkShell (current_dir sh) (running_flag sh) (config sh) (history sh) (trace sh ++ o)
          (cwd sh) (procs sh).

Definition set_aliases (l : list Alias) (sh : Shell) : Shell :=
  set_config (mkConfig l (jobs (config sh))) sh.

Definition set_jobs (l : list Job) (sh : Shell) : Shell :=
  set_config (mkConfig (aliases (config sh)) l) sh.

Definition print_error (msg : string) (sh : Shell) : Shell :=
  emit [PrintError msg] sh.

Definition printf (text : string) (sh : Shell) : Shell :=
  emit [Printf text] sh.

Definition nl : string := String (chr 10) "".
Definition esc : string := String (chr 27) "".

(** [add_to_history]: an empty line is not recorded. *)
Definition add_to_history (command : string) (sh : Shell) : Shell :=
  if command =? "" then sh else set_history (history sh ++ [command]) sh.

(** ** Alias table *)

(** The scan [for (i = 0; i < config.alias_count; i++)] of [get_alias]. *)
Fixpoint lookup_alias (l : list Alias) (n : string) : option string :=
  match l with
  | [] => None
  | a :: l' => if name a =? n then Some (value a) else lookup_alias l' n
  end.

Definition get_alias (n : string) (sh : Shell) : option string :=
  lookup_alias (aliases (config sh)) n.

(** The scan of [add_alias] for an entry to overwrite: the table with the
    first entry called [n] given the value [v], or [None] when the loop
    ends without a match. *)
Fixpoint overwrite_alias (l : list Alias) (n v : string) : option (list Alias) :=
  match l with
  | [] => None
  | a :: l' =>
      if name a =? n then Some (mkAlias (name a) v :: l')
      else option_map (cons a) (overwrite_alias l' n v)
  end.

Definition add_alias (n v : string) (sh : Shell) : Shell :=
  if (MAX_ALIASES <=? alias_count (config sh))%nat
  then print_error "Maximum number of aliases reached" sh
  else
    match overwrite_alias (aliases (config sh)) n v with
    | Some l' => set_aliases l' sh
    | None => set_aliases (aliases (config sh) ++ [mkAlias n v]) sh
    end.

(** [remove_alias]: the first entry called [n] is dropped and the entries
    behind it move up. *)
Fixpoint drop_alias (l : list Alias) (n : string) : list Alias :=
  match l with
  | [] => []
  | a :: l' => if name a =? n then l' else a :: drop_alias l' n
  end.

Definition remove_alias (n : string) (sh : Shell) : Shell :=
  set_aliases (drop_alias (aliases (config sh)) n) sh.

(** ** Job table *)

Local Open Scope Z_scope.

(** The wait-status macros of [<sys/wait.h>] (Linux encoding). *)
Definition WEXITSTATUS (wstatus : Z) : Z := Z.shiftr (Z.land wstatus 65280) 8.
Definition WTERMSIG (wstatus : Z) : Z := Z.land wstatus 127.
Definition WIFEXITED (wstatus : Z) : bool := WTERMSIG wstatus =? 0.
Definition WIFSIGNALED (wstatus : Z) : bool :=
  (0 <? WTERMSIG wstatus) && (WTERMSIG wstatus <? 127).

(** The wait status of a child that called [exit (code)]. *)
Definition W_EXITCODE (code : Z) : Z := Z.shiftl code 8.

Definition add_job (p : Z) (cmd : string) (sh : Shell) : Shell :=
  if (MAX_ARGS <=? job_count (config sh))%nat
  then print_error "Maximum number of background jobs reached" sh
  else set_jobs (jobs (config sh) ++ [mkJob p cmd 0 true]) sh.

(** [get_job]: ids are positions, counted from 1. *)
Definition get_job (job_id : Z) (sh : Shell) : option Job :=
  if (job_id <=? 0) || (Z.of_nat (job_count (config sh)) <? job_id) then None
  else nth_error (jobs (config sh)) (Z.to_nat (job_id - 1)).

(** [waitpid (p, &status, WNOHANG)] for a process id [p > 0]: the value
    returned, the status stored, and the children left.  A child that is
    still running gives 0, a terminated one is reaped and gives [p], and
    anything else is an error, -1.  The status is only meaningful in the
    second case. *)
Definition waitpid_nohang (ps : Z -> pstate) (p : Z) : Z * Z * (Z -> pstate) :=
  match ps p with
  | PRunning => (0, 0, ps)
  | PZombie wstatus => (p, wstatus, fun q => if q =? p then PNone else ps q)
  | PNone => (-1, 0, ps)
  end.

Definition uint_string (n : nat) : string := NilEmpty.string_of_uint (Nat.to_uint n).

(** The line ["[%d] %s %s (%s)\n"] of [update_jobs]. *)
Definition job_done_line (i : nat) (j : Job) : string :=
  "[" ++ uint_string (i + 1) ++ "] " ++ command j ++ " Done ("
      ++ (if status j =? 0 then "success" else "failed") ++ ")" ++ nl.

(** The body of the loop of [update_jobs] for the entry at index [i]. *)
Definition update_job (i : nat) (j : Job) (ps : Z -> pstate)
  : Job * list output * (Z -> pstate) :=
  if negb (running j) then (j, [], ps)
  else
    let '(result, wstatus, ps1) := waitpid_nohang ps (pid j) in
    if result =? 0 then (j, [], ps1)
    else if result =? pid j then
      let j' := mkJob (pid j) (command j) (WEXITSTATUS wstatus) false in
      (j', [Printf (job_done_line i j')], ps1)
    else (j, [], ps1).

(** The loop [for (i = 0; i < config.job_count; i++)] from index [i] on:
    [js] is [config.jobs[i ..]]. *)
Fixpoint update_jobs_from (i : nat) (js : list Job) (ps : Z -> pstate)
  : list Job * list output * (Z -> pstate) :=
  match js with
  | [] => ([], [], ps)
  | j :: js' =>
      let '(j1, o1, ps1) := update_job i j ps in
      let '(r, o, ps2) := update_jobs_from (S i) js' ps1 in
      (j1 :: r, (o1 ++ o)%list, ps2)
  end.

Definition update_jobs (sh : Shell) : Shell :=
  let '(js, o, ps) := update_jobs_from 0 (jobs (config sh)) (procs sh) in
  set_procs ps (emit o (set_jobs js sh)).

Local Close Scope Z_scope.

(** ** Path search, builtins and dispatch *)

(** [standard_paths] of [main.c]. *)
Definition standard_paths : list string :=
  ["/bin"; "/sbin"; "/usr/bin"; "/usr/sbin"; "/usr/local/bin"; "~/.local/bin"].

(** [strchr (s, c) != NULL]. *)
Fixpoint has_char (c : ascii) (s : string) : bool :=
  match s with
  | "" => false
  | String a s' => (a =? c)%char || has_char c s'
  end.

(** [strchr (s, c)] followed by [*p = '\0']: the text before the first
    [c] and the text after it. *)
Fixpoint split_at (c : ascii) (s : string) : option (string * string) :=
  match s with
  | "" => None
  | String a s' =>
      if (a =? c)%char then Some ("", s')
      else option_map (fun xy => (String a (fst xy), snd xy)) (split_at c s')
  end.

(** [snprintf (full_path, sizeof (full_path), "%s/%s", dir, cmd)]: at most
    [MAX_PATH_LENGTH - 1] characters are stored. *)
Definition full_path (cmd dir : string) : string :=
  substring 0 (MAX_PATH_LENGTH - 1) (dir ++ "/" ++ cmd).

(** [printf ("%5d", n)]. *)
Fixpoint spaces (n : nat) : string :=
  match n with
  | O => ""
  | S n' => String " " (spaces n')
  end.

Definition pad5 (n : nat) : string :=
  spaces (5 - String.length (uint_string n)) ++ uint_string n.

Fixpoint history_lines (i : nat) (h : list string) : list output :=
  match h with
  | [] => []
  | line :: h' => Printf (pad5 (i + 1) ++ "  " ++ line ++ nl) :: history_lines (S i) h'
  end.

(** [trim_whitespace]: the leading loop, and the loop that moves [end]
    back from the last character, never below the first one. *)
Fixpoint skip_space (s : string) : string :=
  match s with
  | "" => ""
  | String c s' => if isspace c then skip_space s' else s
  end.

Fixpoint drop_trailing_space (s : string) : string :=
  match s with
  | "" => ""
  | String c s' =>
      match drop_trailing_space s' with
      | "" => if isspace c then "" else String c ""
      | r => String c r
      end
  end.

Definition trim_whitespace (s : string) : string :=
  match skip_space s with
  | "" => ""
  | String c r => String c (drop_trailing_space r)
  end.

(** What [find_command] gives: the path it returns, NULL, or a write past
    the end of [new_path], after which nothing is defined. *)
Inductive search_result :=
| Found (path : string)
| NotFound
| Overrun.

Section Engine.

Variable K : Kernel.

(** The text that [find_command] appends to the search path for one entry
    of [standard_paths]. *)
Definition expand_home (sp : string) : string :=
  match sp with
  | String "~" rest =>
      match sys_getenv K "HOME" with
      | Some home => home ++ rest
      | None => sp
      end
  | _ => sp
  end.

(** The value of [getenv ("PATH")], or the default of [find_command]. *)
Definition path_env : string :=
  match sys_getenv K "PATH" with
  | Some p => p
  | None => "/bin:/usr/bin"
  end.

(** [total_len]: the length of the search path plus, for each entry of
    [standard_paths], its length as it is written in the table and one
    more for the colon.  [malloc (total_len + 1)] has room for [total_len]
    characters and the final 0. *)
Definition total_len : nat :=
  fold_left (fun n sp => n + (String.length sp + 1)) standard_paths
            (String.length path_env).

(** The text that [strcpy] and the [strcat] loop write into [new_path]. *)
Definition new_path : string :=
  fold_left (fun acc sp => (acc ++ ":" ++ expand_home sp)%string) standard_paths path_env.

(** The text does not fit: [strcat] writes past the end of [new_path]. *)
Definition new_path_overruns : bool :=
  (total_len <? String.length new_path)%nat.

(** The loop [while (dir)] over the tokens of [new_path]. *)
Fixpoint search_path (wd : string) (dirs : list string) (cmd : string) : option string :=
  match dirs with
  | [] => None
  | dir :: dirs' =>
      if sys_access_x K wd (full_path cmd dir) then Some (full_path cmd dir)
      else search_path wd dirs' cmd
  end.

Definition find_command (wd : string) (cmd : string) : search_result :=
  if has_char "/" cmd then
    if sys_access_x K wd cmd then Found cmd else NotFound
  else if new_path_overruns then Overrun
  else
    match search_path wd (strtok is_colon new_path) cmd with
    | Some p => Found p
    | None => NotFound
    end.

(** The tail of [cmd_cd] after a successful [chdir]: [getcwd] is given the
    buffer [current_dir] itself. *)
Definition cd_getcwd (sh : Shell) : Z * Shell :=
  match sys_getcwd K (cwd sh) (current_dir sh) with
  | GetcwdError err contents =>
      (EXIT_FAILURE, print_error ("getcwd: " ++ err) (set_current_dir contents sh))
  | GetcwdOk => (EXIT_SUCCESS, set_current_dir (cwd sh) sh)
  end.

Definition cd_chdir (target : string) (sh : Shell) : Z * Shell :=
  match sys_chdir K (cwd sh) target with
  | inr err => (EXIT_FAILURE, print_error ("cd: " ++ target ++ ": " ++ err) sh)
  | inl d => cd_getcwd (set_cwd d sh)
  end.

Definition cmd_cd (args : list string) (sh : Shell) : Z * Shell :=
  match arg_at args 1 with
  | None =>
      match sys_getenv K "HOME" with
      | None => (EXIT_FAILURE, print_error "HOME environment variable not set" sh)
      | Some home => cd_chdir home sh
      end
  | Some dir => cd_chdir dir sh
  end.

Definition cmd_pwd (args : list string) (sh : Shell) : Z * Shell :=
  (EXIT_SUCCESS, printf (current_dir sh ++ nl) sh).

Definition cmd_exit (args : list string) (sh : Shell) : Z * Shell :=
  (EXIT_SUCCESS, set_running false sh).

Definition cmd_clear (args : list string) (sh : Shell) : Z * Shell :=
  (EXIT_SUCCESS, printf (esc ++ "[H" ++ esc ++ "[J") sh).

Definition cmd_help (args : list string) (sh : Shell) : Z * Shell :=
  (EXIT_SUCCESS,
   emit ([Printf (nl ++ "Available built-in commands:" ++ nl);
          Printf ("  cd [dir]     - Change directory" ++ nl);
          Printf ("  pwd          - Print working directory" ++ nl);
          Printf ("  clear        - Clear screen" ++ nl);
          Printf ("  history      - Show command history" ++ nl);
          Printf ("  alias        - Show/set aliases" ++ nl);
          Printf ("  help         - Show this help" ++ nl);
          Printf ("  exit         - Exit shell" ++ nl);
          Printf (nl ++ "External commands are searched in:" ++ nl)]
         ++ map (fun sp => Printf ("  " ++ sp ++ nl)) standard_paths
         ++ [Printf ("  And any directory in $PATH" ++ nl)]) sh).

Definition cmd_history (args : list string) (sh : Shell) : Z * Shell :=
  (EXIT_SUCCESS, emit (history_lines 0 (history sh)) sh).

Definition cmd_alias (args : list string) (sh : Shell) : Z * Shell :=
  match arg_at args 1 with
  | None =>
      (EXIT_SUCCESS,
       emit (map (fun a => Printf ("alias " ++ name a ++ "='" ++ value a ++ "'" ++ nl))
                 (aliases (config sh))) sh)
  | Some a1 =>
      match split_at "=" a1 with
      | None => (EXIT_FAILURE, print_error "alias: invalid format. Use: alias name=value" sh)
      | Some (n, v) => (EXIT_SUCCESS, add_alias n v sh)
      end
  end.

Definition execute_builtin (args : list string) (sh : Shell) : Z * Shell :=
  match args with
  | [] => (EXIT_SUCCESS, sh)
  | a0 :: _ =>
      if a0 =? "cd" then cmd_cd args sh
      else if a0 =? "pwd" then cmd_pwd args sh
      else if a0 =? "exit" then cmd_exit args sh
      else if a0 =? "clear" then cmd_clear args sh
      else if a0 =? "help" then cmd_help args sh
      else if a0 =? "history" then cmd_history args sh
      else if a0 =? "alias" then cmd_alias args sh
      else (EXIT_NOT_FOUND, sh)
  end.

Definition execute_external (args : list string) (sh : Shell) : option (Z * Shell) :=
  match args with
  | [] => Some (EXIT_FAILURE, sh)
  | a0 :: _ =>
      match find_command (cwd sh) a0 with
      | Overrun => None
      | NotFound => Some (EXIT_NOT_FOUND, print_error (a0 ++ ": command not found") sh)
      | Found cmd_path =>
          match sys_spawn K (cwd sh) cmd_path args with
          | ForkFailed err => Some (EXIT_FAILURE, print_error ("fork: " ++ err) sh)
          | ExecFailed err =>
              Some (EXIT_NOT_FOUND,
                    print_error (a0 ++ ": execution failed: " ++ err) sh)
          | Terminated wstatus =>
              Some (if WIFEXITED wstatus then WEXITSTATUS wstatus else EXIT_FAILURE,
                    emit [Execv cmd_path args] sh)
          end
      end
  end.

(** The vector that [execute_command] ends up with: the words of the
    line, or, when the first word names an alias, the words of the alias
    value. *)
Definition resolve_alias (args : list string) (sh : Shell) : list string :=
  match args with
  | [] => args
  | a0 :: _ =>
      match get_alias a0 sh with
      | Some alias_value => parse_command alias_value
      | None => args
      end
  end.

(** The last step of [execute_command]: the builtin, and the external
    command when the builtin answers [EXIT_NOT_FOUND]. *)
Definition dispatch (args : list string) (sh : Shell) : option (Z * Shell) :=
  let '(status, sh1) := execute_builtin args sh in
  if (status =? EXIT_NOT_FOUND)%Z then execute_external args sh1 else Some (status, sh1).

Definition execute_command (command : string) (sh : Shell) : option (Z * Shell) :=
  if command =? "" then Some (EXIT_SUCCESS, sh)
  else
    let sh1 := add_to_history command sh in
    let args := resolve_alias (parse_command command) sh1 in
    dispatch args sh1.

(** One turn of the loop of [main] on the line that [readline] returned:
    [execute_command] on the trimmed line, then [update_jobs]. *)
Definition shell_cycle (command : string) (sh : Shell) : option Shell :=
  if command =? "" then Some sh
  else
    let trimmed := trim_whitespace command in
    if trimmed =? "" then Some sh
    else
      match execute_command trimmed sh with
      | Some (_, sh1) => Some (update_jobs sh1)
      | None => None
      end.

End Engine.

(** The state that [initialize_shell] sets up in working directory [wd],
    when [getcwd] succeeds: [hist] are the lines that [read_history] loads
    from the history file (none when there is no file). *)
Definition initial_shell (wd : string) (hist : list string) : Shell :=
  mkShell wd true (mkConfig [] []) hist [] wd (fun _ => PNone).

(** ** Vocabulary of the statements *)

Fixpoint all_chars (p : ascii -> bool) (s : string) : bool :=
  match s with
  | "" => true
  | String c s' => p c && all_chars p s'
  end.

(** A word that [strtok] can return: not empty, no delimiter in it. *)
Definition is_token (delim : ascii -> bool) (w : string) : bool :=
  negb (w =? "") && all_chars (fun c => negb (delim c)) w.

Definition is_word (w : string) : Prop := is_token is_blank w = true.

(** The directory that the change-directory builtin is asked for: its
    argument, or without one the home directory. *)
Definition cd_target (K : Kernel) (args : list string) : option string :=
  match args with
  | _ :: dir :: _ => Some dir
  | _ => sys_getenv K "HOME"
  end.

(** The names that [execute_builtin] compares [args[0]] with. *)
Definition builtin_names : list string :=
  ["cd"; "pwd"; "exit"; "clear"; "help"; "history"; "alias"].

Definition redirection_tokens : list string := ["<"; ">"; ">>"; "2>"; "2>>"].

(** The search order that the path search is meant to follow: the entries
    of the search-path variable, then the fixed directories, the last of
    them in the home directory [home]. *)
Definition search_list (K : Kernel) (home : string) : list string :=
  strtok is_colon (path_env K)
  ++ ["/bin"; "/sbin"; "/usr/bin"; "/usr/sbin"; "/usr/local/bin";
      (home ++ "/.local/bin")%string].

(** A small system to run the engine on: two directories with programs, a
    home directory, and children that exit with status 0. *)
Definition demo_kernel : Kernel :=
  mkKernel
    (fun v => if v =? "HOME" then Some "/home/u"
              else if v =? "PATH" then Some "/usr/bin:/bin" else None)
    (fun _ p => existsb (String.eqb p)
                  ["/usr/bin/ls"; "/bin/ls"; "/bin/sleep"; "/bin/b"; "/bin/c"; "/bin/a";
                   "/usr/bin/w"])
    (fun _ p => if existsb (String.eqb p) ["/tmp"; "/home/u"; "/"] then inl p
                else inr "No such file or directory")
    (fun _ _ => GetcwdOk)
    (fun _ _ _ => Terminated 0).

Definition demo_shell : Shell := initial_shell "/home/u" [].

(** The same system for a user whose home directory is [/]: here the text
    of [new_path] fits its buffer. *)
Definition root_kernel : Kernel :=
  mkKernel
    (fun v => if v =? "HOME" then Some "/"
              else if v =? "PATH" then Some "/usr/bin:/bin" else None)
    (sys_access_x demo_kernel)
    (sys_chdir demo_kernel)
    (sys_getcwd demo_kernel)
    (sys_spawn demo_kernel).

Definition root_shell : Shell := initial_shell "/" [].

(** Children of the demo: process 42 has exited with code 3, process 43 is
    still running. *)
Definition demo_procs : Z -> pstate :=
  fun q => if (q =? 42)%Z then PZombie (W_EXITCODE 3)
           else if (q =? 43)%Z then PRunning else PNone.

(** [n] aliases [a0], [a1], ... defined one after the other. *)
Fixpoint define_aliases (n : nat) (sh : Shell) : Shell :=
  match n with
  | O => sh
  | S n' => add_alias ("a" ++ uint_string n') "old" (define_aliases n' sh)
  end.

(** [n] background jobs with the process ids 1 to [n] registered one after
    the other. *)
Fixpoint register_jobs (n : nat) (sh : Shell) : Shell :=
  match n with
  | O => sh
  | S n' => add_job (Z.of_nat n) "sleep 100" (register_jobs n' sh)
  end.

(** ** More of [shell.c] and [main.c] *)

(** [s + n] for a C string: the text from index [n] on. *)
Fixpoint drop (n : nat) (s : string) : string :=
  match n, s with
  | O, _ => s
  | S n', String _ s' => drop n' s'
  | S _, "" => ""
  end.

(** [get_short_path]: [strncmp (path, home, strlen (home)) == 0] says that
    [home] is a prefix of [path]; [snprintf] and [strncpy] store at most
    [MAX_PATH_LENGTH - 1] characters. *)
Definition get_short_path (K : Kernel) (path : string) : string :=
  match sys_getenv K "HOME" with
  | Some home =>
      if prefix home path
      then substring 0 (MAX_PATH_LENGTH - 1) ("~" ++ drop (String.length home) path)
      else substring 0 (MAX_PATH_LENGTH - 1) path
  | None => substring 0 (MAX_PATH_LENGTH - 1) path
  end.

(** [get_permissions]: the character stored at [perms[i * 3 + j]]. *)
Definition perm_char (mode : Z) (i j : nat) : ascii :=
  if (Z.land mode (Z.shiftl 1 (Z.of_nat (8 - i * 3 - j))) =? 0)%Z then "-"%char
  else nth j ["r"; "w"; "x"]%char "-"%char.

Definition perm_triple (mode : Z) (i : nat) (rest : string) : string :=
  String (perm_char mode i 0) (String (perm_char mode i 1) (String (perm_char mode i 2) rest)).

Definition get_permissions (mode : Z) : string :=
  perm_triple mode 0 (perm_triple mode 1 (perm_triple mode 2 "")).

(** The loop of [main]: [lines] are the lines that [readline] returns one
    after the other, the end of the list being the end of the input.  The
    loop stops before a line when [running] is 0. *)
Fixpoint main_loop (K : Kernel) (lines : list string) (sh : Shell) : option Shell :=
  match lines with
  | [] => Some sh
  | line :: lines' =>
      if running_flag sh then
        match shell_cycle K line sh with
        | Some sh1 => main_loop K lines' sh1
        | None => None
        end
      else Some sh
  end.

(** A system in which the directory [/gone] can be entered but [getcwd]
    fails there and leaves an empty string in the buffer. *)
Definition gone_kernel : Kernel :=
  mkKernel
    (sys_getenv demo_kernel)
    (sys_access_x demo_kernel)
    (fun _ p => inl p)
    (fun d _ => if d =? "/gone" then GetcwdError "No such file or directory" ""
                else GetcwdOk)
    (sys_spawn demo_kernel).

(** ** More vocabulary *)

(** The alias table as [add_alias] keeps it: no name twice, no more than
    [MAX_ALIASES] entries. *)
Definition alias_table_ok (sh : Shell) : Prop :=
  NoDup (map name (aliases (config sh))) /\ alias_count (config sh) <= MAX_ALIASES.

Definition no_blank (s : string) : bool := all_chars (fun c => negb (is_blank c)) s.

(** Every alias value is free of blanks. *)
Definition alias_values_plain (sh : Shell) : Prop :=
  Forall (fun a => no_blank (value a) = true) (aliases (config sh)).

Definition count_running (js : list Job) : nat := length (filter running js).

Fixpoint last_char (s : string) : option ascii :=
  match s with
  | "" => None
  | String c "" => Some c
  | String _ s' => last_char s'
  end.

Definition first_char (s : string) : option ascii :=
  match s with
  | "" => None
  | String c _ => Some c
  end.

(** The mode bits that a permission string stands for: bit [8 - k] is set
    when the character at index [k] is not [-]. *)
Fixpoint perms_mode_from (k : nat) (perms : string) : Z :=
  match perms with
  | "" => 0%Z
  | String c rest =>
      ((if (c =? "-")%char then 0 else Z.shiftl 1 (Z.of_nat (8 - k)))
       + perms_mode_from (S k) rest)%Z
  end.

Definition perms_mode (perms : string) : Z := perms_mode_from 0 perms.

(** * Properties *)

(** ** Strings and tokens *)

Lemma append_empty_r (s : string) : (s ++ "")%string = s.
Proof. induction s as [|c s IH]; simpl; [reflexivity | now rewrite IH]. Qed.

Lemma append_assoc (a b c : string) : ((a ++ b) ++ c = a ++ (b ++ c))%string.
Proof. induction a as [|x a IH]; simpl; [reflexivity | now rewrite IH]. Qed.

Lemma snoc_append (tok : string) (c : ascii) (s : string) :
  (snoc tok c ++ s = tok ++ String c s)%string.
Proof. unfold snoc. now rewrite append_assoc. Qed.

Lemma flush_app (tok : string) (l1 l2 : list string) :
  flush tok (l1 ++ l2) = flush tok l1 ++ l2.
Proof. destruct tok; reflexivity. Qed.

Lemma strtok_from_sep (delim : ascii -> bool) (c : ascii) (b : string) :
  delim c = true ->
  forall a tok,
    strtok_from delim tok (a ++ String c b)%string
    = strtok_from delim tok a ++ strtok delim b.
Proof.
  intros Hc a. induction a as [|x a IH]; intros tok; simpl.
  - rewrite Hc. now rewrite <- flush_app.
  - destruct (delim x).
    + rewrite IH. apply flush_app.
    + apply IH.
Qed.

Lemma strtok_sep (delim : ascii -> bool) (c : ascii) (a b : string) :
  delim c = true ->
  strtok delim (a ++ String c b)%string = strtok delim a ++ strtok delim b.
Proof. intros Hc. unfold strtok at 1 2. now apply strtok_from_sep. Qed.

Lemma strtok_from_word (delim : ascii -> bool) (w : string) :
  all_chars (fun c => negb (delim c)) w = true ->
  forall tok, strtok_from delim tok w = flush (tok ++ w)%string [].
Proof.
  induction w as [|c w IH]; simpl; intros Hw tok.
  - now rewrite append_empty_r.
  - apply andb_true_iff in Hw. destruct Hw as [Hc Hw].
    apply negb_true_iff in Hc. rewrite Hc, (IH Hw). now rewrite snoc_append.
Qed.

Lemma strtok_token (delim : ascii -> bool) (w : string) :
  is_token delim w = true -> strtok delim w = [w].
Proof.
  unfold is_token, strtok. intros H. apply andb_true_iff in H. destruct H as [Hne Hw].
  rewrite (strtok_from_word delim w Hw). simpl. destruct w; [discriminate | reflexivity].
Qed.

(** Words joined by one delimiter come back as they were. *)
Lemma strtok_concat (delim : ascii -> bool) (c : ascii) (ws : list string) :
  delim c = true ->
  Forall (fun w => is_token delim w = true) ws ->
  strtok delim (String.concat (String c "") ws) = ws.
Proof.
  intros Hc Hws. induction Hws as [|w ws Hw Hws IH].
  - reflexivity.
  - destruct ws as [|w' ws'].
    + simpl. now apply strtok_token.
    + change (String.concat (String c "") (w :: w' :: ws'))
        with (w ++ String c (String.concat (String c "") (w' :: ws')))%string.
      rewrite (strtok_sep delim c _ _ Hc), IH, (strtok_token delim w Hw). reflexivity.
Qed.

Lemma parse_loop_firstn (toks : list string) :
  forall args argc,
    argc = length args ->
    parse_loop toks args argc
    = (args ++ firstn (MAX_ARGS - 1 - argc) toks,
       length (args ++ firstn (MAX_ARGS - 1 - argc) toks)).
Proof.
  induction toks as [|t toks IH]; intros args argc Hlen; cbn [parse_loop].
  - rewrite firstn_nil, app_nil_r. now subst.
  - destruct (Nat.ltb_spec argc (MAX_ARGS - 1)) as [Hlt | Hge].
    + rewrite IH by (rewrite length_app; simpl; lia).
      replace (MAX_ARGS - 1 - argc) with (S (MAX_ARGS - 1 - S argc)) by lia.
      cbn [firstn]. rewrite <- app_assoc. reflexivity.
    + replace (MAX_ARGS - 1 - argc) with 0 by lia.
      cbn [firstn]. rewrite app_nil_r. now subst.
Qed.

Lemma parse_command_firstn (command : string) :
  parse_command command = firstn (MAX_ARGS - 1) (strtok is_blank command).
Proof.
  unfold parse_command, parse_command_argc.
  rewrite (parse_loop_firstn _ [] 0 eq_refl). cbn [fst app]. now rewrite Nat.sub_0_r.
Qed.

Lemma parse_command_argc_length (command : string) :
  snd (parse_command_argc command) = length (parse_command command).
Proof.
  unfold parse_command, parse_command_argc.
  rewrite (parse_loop_firstn _ [] 0 eq_refl). reflexivity.
Qed.

Lemma parse_command_words (ws : list string) :
  Forall is_word ws ->
  length ws <= MAX_ARGS - 1 ->
  parse_command (String.concat " " ws) = ws.
Proof.
  intros Hws Hlen. rewrite parse_command_firstn.
  rewrite (strtok_concat is_blank " " ws eq_refl Hws).
  now apply firstn_all2.
Qed.

Lemma all_chars_append (p : ascii -> bool) (a b : string) :
  all_chars p (a ++ b) = all_chars p a && all_chars p b.
Proof.
  induction a as [|c a IH]; simpl; [reflexivity |]. now rewrite IH, andb_assoc.
Qed.

Lemma has_char_all_chars (c : ascii) (s : string) :
  has_char c s = false -> all_chars (fun x => negb (x =? c)%char) s = true.
Proof.
  induction s as [|a s IH]; simpl; [reflexivity |].
  intros H. apply orb_false_iff in H. destruct H as [Ha Hs].
  rewrite Ha. simpl. now apply IH.
Qed.

Lemma all_chars_snoc (p : ascii -> bool) (tok : string) (c : ascii) :
  all_chars p tok = true -> p c = true -> all_chars p (snoc tok c) = true.
Proof.
  intros Ht Hc. unfold snoc. rewrite all_chars_append, Ht. simpl. now rewrite Hc.
Qed.

Lemma flush_valid (delim : ascii -> bool) (tok : string) (rest : list string) :
  all_chars (fun c => negb (delim c)) tok = true ->
  Forall (fun w => is_token delim w = true) rest ->
  Forall (fun w => is_token delim w = true) (flush tok rest).
Proof.
  intros Ht Hrest. destruct tok as [|c tok]; [exact Hrest |].
  constructor; [| exact Hrest]. unfold is_token. now rewrite Ht.
Qed.

Lemma strtok_from_valid (delim : ascii -> bool) (s : string) :
  forall tok,
    all_chars (fun c => negb (delim c)) tok = true ->
    Forall (fun w => is_token delim w = true) (strtok_from delim tok s).
Proof.
  induction s as [|c s IH]; intros tok Ht; simpl.
  - now apply flush_valid.
  - destruct (delim c) eqn:Hc.
    + apply flush_valid; [exact Ht | now apply IH].
    + apply IH. apply all_chars_snoc; [exact Ht | now rewrite Hc].
Qed.

Lemma strtok_valid (delim : ascii -> bool) (s : string) :
  Forall (fun w => is_token delim w = true) (strtok delim s).
Proof. now apply strtok_from_valid. Qed.

Lemma Forall_firstn_keeps {A : Type} (P : A -> Prop) (n : nat) (l : list A) :
  Forall P l -> Forall P (firstn n l).
Proof.
  intros H. revert n. induction H as [|x l Hx Hl IH]; intros [|n]; simpl; auto.
Qed.

Lemma parse_command_valid (command : string) : Forall is_word (parse_command command).
Proof.
  rewrite parse_command_firstn. apply Forall_firstn_keeps. apply strtok_valid.
Qed.

Lemma parse_command_length (command : string) :
  length (parse_command command) <= MAX_ARGS - 1.
Proof. rewrite parse_command_firstn. apply firstn_le_length. Qed.

Lemma strtok_from_nil (delim : ascii -> bool) (s : string) :
  forall tok, strtok_from delim tok s = [] <-> tok = "" /\ all_chars delim s = true.
Proof.
  induction s as [|c s IH]; intros tok; simpl.
  - destruct tok; simpl; split; try tauto; try discriminate.
    intros [H _]. discriminate H.
  - destruct (delim c); simpl.
    + destruct tok; simpl.
      * rewrite IH. tauto.
      * split; [discriminate | intros [H _]; discriminate H].
    + rewrite IH. unfold snoc. split; [| intros [_ H]; discriminate H].
      intros [H _]. destruct tok; discriminate H.
Qed.

Lemma substring_0_length (m : nat) : forall s, String.length (substring 0 m s) <= m.
Proof.
  induction m as [|m IH]; intros [|c s]; simpl; try lia.
  specialize (IH s). lia.
Qed.

Lemma substring_0_all (m : nat) : forall s, String.length s <= m -> substring 0 m s = s.
Proof.
  induction m as [|m IH]; intros [|c s]; simpl; intros H; try reflexivity; try lia.
  rewrite IH by lia. reflexivity.
Qed.

Lemma substring_0_prefix (m : nat) : forall s, prefix (substring 0 m s) s = true.
Proof.
  induction m as [|m IH]; intros [|c s]; simpl; try reflexivity.
  destruct (ascii_dec c c); [apply IH | contradiction].
Qed.

Lemma string_length_append (a b : string) :
  String.length (a ++ b) = String.length a + String.length b.
Proof. induction a as [|c a IH]; simpl; [reflexivity | now rewrite IH]. Qed.

Lemma skip_space_blank (s : string) :
  all_chars isspace s = true -> skip_space s = "".
Proof.
  induction s as [|c s IH]; simpl; [reflexivity |].
  intros H. apply andb_true_iff in H. destruct H as [Hc Hs]. rewrite Hc. now apply IH.
Qed.

(** ** Tactics and wait statuses *)

Ltac destruct_matches :=
  repeat match goal with
         | |- context [match ?x with _ => _ end] => destruct x eqn:?
         end.

Ltac builtin_cases a0 :=
  repeat match goal with
         | |- context [String.eqb a0 ?b] =>
             destruct (String.eqb_spec a0 b) as [-> | ?]
         end.

Ltac status_lia := unfold EXIT_SUCCESS, EXIT_FAILURE, EXIT_NOT_FOUND in *; lia.

Ltac frame_done :=
  simpl;
  repeat match goal with
         | |- _ /\ _ => split
         | |- _ <> _ -> _ =>
             let Hc := fresh "Hc" in
             intros Hc; try (exfalso; apply Hc; reflexivity)
         end;
  auto.

Local Open Scope Z_scope.

Ltac unfold_update_job :=
  unfold update_job, waitpid_nohang;
  match goal with
  | |- context [negb (running ?j)] => destruct (running j) eqn:?; cbn [negb]
  end;
  [match goal with
   | |- context [match ?ps (pid ?j) with _ => _ end] => destruct (ps (pid j)) eqn:?
   end; cbv beta iota zeta |].

Local Close Scope Z_scope.

Lemma WEXITSTATUS_range (wstatus : Z) : (0 <= WEXITSTATUS wstatus <= 255)%Z.
Proof.
  unfold WEXITSTATUS. rewrite Z.shiftr_land.
  change (Z.shiftr 65280 8) with (Z.ones 8). rewrite Z.land_ones by lia.
  pose proof (Z.mod_pos_bound (Z.shiftr wstatus 8) (2 ^ 8) eq_refl) as H.
  change (2 ^ 8)%Z with 256%Z in *. lia.
Qed.

Local Open Scope Z_scope.

Lemma WEXITSTATUS_W_EXITCODE (code : Z) :
  0 <= code < 256 -> WEXITSTATUS (W_EXITCODE code) = code.
Proof.
  intros Hcode.
  assert (Hall : forallb (fun n => WEXITSTATUS (W_EXITCODE (Z.of_nat n)) =? Z.of_nat n)
                         (seq 0 256) = true) by (vm_compute; reflexivity).
  rewrite forallb_forall in Hall.
  specialize (Hall (Z.to_nat code)).
  rewrite Z2Nat.id in Hall by lia.
  apply Z.eqb_eq, Hall, in_seq. lia.
Qed.

Lemma W_EXITCODE_exited (code : Z) :
  0 <= code < 256 -> WIFEXITED (W_EXITCODE code) = true.
Proof.
  intros Hcode.
  assert (Hall : forallb (fun n => WIFEXITED (W_EXITCODE (Z.of_nat n))) (seq 0 256) = true)
    by (vm_compute; reflexivity).
  rewrite forallb_forall in Hall.
  specialize (Hall (Z.to_nat code)).
  rewrite Z2Nat.id in Hall by lia.
  apply Hall, in_seq. lia.
Qed.

Lemma WIFSIGNALED_not_exited (wstatus : Z) :
  WIFSIGNALED wstatus = true -> WIFEXITED wstatus = false.
Proof.
  unfold WIFSIGNALED, WIFEXITED. intros H. apply andb_true_iff in H.
  destruct H as [H _]. apply Z.ltb_lt in H. apply Z.eqb_neq. lia.
Qed.

Lemma WEXITSTATUS_signal (wstatus : Z) :
  0 <= wstatus < 256 -> WEXITSTATUS wstatus = 0.
Proof.
  intros Hw.
  assert (Hall : forallb (fun n => WEXITSTATUS (Z.of_nat n) =? 0) (seq 0 256) = true)
    by (vm_compute; reflexivity).
  rewrite forallb_forall in Hall.
  specialize (Hall (Z.to_nat wstatus)).
  rewrite Z2Nat.id in Hall by lia.
  apply Z.eqb_eq, Hall, in_seq. lia.
Qed.

Local Close Scope Z_scope.

(** ** When the path search is defined *)

Lemma new_path_length (l : list string) (f : string -> string) :
  forall p,
    String.length (fold_left (fun acc sp => (acc ++ ":" ++ f sp)%string) l p)
    = fold_left (fun n sp => n + (String.length (f sp) + 1)) l (String.length p).
Proof.
  induction l as [|sp l IH]; intros p; simpl; [reflexivity |].
  rewrite IH. f_equal. rewrite string_length_append. simpl. lia.
Qed.

(** [strcat] writes past the end of [new_path] exactly when [HOME] is set
    and longer than one character: [total_len] counts the twelve characters
    of ["~/.local/bin"], and the text written is [HOME] and
    ["/.local/bin"]. *)
Lemma new_path_overruns_iff (K : Kernel) :
  new_path_overruns K = true
  <-> exists home, sys_getenv K "HOME" = Some home /\ 1 < String.length home.
Proof.
  unfold new_path_overruns, new_path, total_len.
  rewrite new_path_length. unfold standard_paths, expand_home. cbn [fold_left].
  rewrite Nat.ltb_lt.
  destruct (sys_getenv K "HOME") as [home|].
  - rewrite string_length_append. cbn [String.length].
    split.
    + intros H. exists home. split; [reflexivity | lia].
    + intros [h [Hh Hlen]]. injection Hh as <-. lia.
  - cbn [String.length]. split; [lia | intros [h [Hh _]]; discriminate Hh].
Qed.

Lemma find_command_overrun (K : Kernel) (wd cmd : string) :
  find_command K wd cmd = Overrun
  <-> has_char "/" cmd = false /\ new_path_overruns K = true.
Proof.
  unfold find_command. destruct (has_char "/" cmd).
  - destruct (sys_access_x K wd cmd); split; try discriminate; intros [H _]; discriminate H.
  - destruct (new_path_overruns K).
    + split; auto.
    + destruct (search_path K wd (strtok is_colon (new_path K)) cmd);
        split; try discriminate; intros [_ H]; discriminate H.
Qed.

(** ** Dispatch: what a command leaves alone *)

Lemma execute_builtin_other (K : Kernel) (a0 : string) (rest : list string) (sh : Shell) :
  ~ In a0 builtin_names ->
  execute_builtin K (a0 :: rest) sh = (EXIT_NOT_FOUND, sh).
Proof.
  intros Hno. unfold execute_builtin.
  repeat match goal with
         | |- context [String.eqb a0 ?b] =>
             destruct (String.eqb_spec a0 b) as [-> | _];
             [exfalso; apply Hno; simpl; tauto |]
         end.
  reflexivity.
Qed.

Lemma dispatch_other (K : Kernel) (a0 : string) (rest : list string) (sh : Shell) :
  ~ In a0 builtin_names ->
  dispatch K (a0 :: rest) sh = execute_external K (a0 :: rest) sh.
Proof.
  intros Hno. unfold dispatch. now rewrite execute_builtin_other.
Qed.

Lemma get_alias_add_to_history (n command : string) (sh : Shell) :
  get_alias n (add_to_history command sh) = get_alias n sh.
Proof. unfold add_to_history. now destruct (command =? "")%string. Qed.

Lemma trace_add_to_history (command : string) (sh : Shell) :
  trace (add_to_history command sh) = trace sh.
Proof. unfold add_to_history. now destruct (command =? "")%string. Qed.

Lemma cwd_add_to_history (command : string) (sh : Shell) :
  cwd (add_to_history command sh) = cwd sh.
Proof. unfold add_to_history. now destruct (command =? "")%string. Qed.

Lemma add_to_history_state (command : string) (sh : Shell) :
  cwd (add_to_history command sh) = cwd sh /\
  current_dir (add_to_history command sh) = current_dir sh /\
  running_flag (add_to_history command sh) = running_flag sh /\
  config (add_to_history command sh) = config sh /\
  procs (add_to_history command sh) = procs sh /\
  trace (add_to_history command sh) = trace sh.
Proof. unfold add_to_history. destruct (command =? "")%string; repeat split. Qed.

Lemma jobs_add_alias (n v : string) (sh : Shell) :
  jobs (config (add_alias n v sh)) = jobs (config sh).
Proof.
  unfold add_alias. destruct (MAX_ALIASES <=? alias_count (config sh))%nat; [reflexivity |].
  destruct (overwrite_alias (aliases (config sh)) n v); reflexivity.
Qed.

Lemma jobs_execute_builtin (K : Kernel) (args : list string) (sh : Shell) :
  jobs (config (snd (execute_builtin K args sh))) = jobs (config sh).
Proof.
  unfold execute_builtin. destruct args as [|a0 rest]; [reflexivity |].
  repeat match goal with
         | |- context [if ?b then _ else _] => destruct b
         end; try reflexivity.
  - unfold cmd_cd, cd_chdir, cd_getcwd.
    repeat match goal with
           | |- context [match ?x with _ => _ end] => destruct x; simpl
           end; reflexivity.
  - unfold cmd_alias.
    destruct (arg_at (a0 :: rest) 1) as [a1|]; [| reflexivity].
    destruct (split_at "=" a1) as [[n v]|]; [| reflexivity].
    apply jobs_add_alias.
Qed.

Lemma add_alias_state (n v : string) (sh : Shell) :
  history (add_alias n v sh) = history sh /\ cwd (add_alias n v sh) = cwd sh /\
  current_dir (add_alias n v sh) = current_dir sh /\
  running_flag (add_alias n v sh) = running_flag sh /\
  procs (add_alias n v sh) = procs sh.
Proof. unfold add_alias. destruct_matches; repeat split. Qed.

(** What [execute_builtin] leaves alone, by the name in [args[0]], and its
    status. *)
Lemma execute_builtin_state (K : Kernel) (args : list string) (sh : Shell) :
  let r := execute_builtin K args sh in
  history (snd r) = history sh /\
  procs (snd r) = procs sh /\
  (hd_error args <> Some "cd" ->
   cwd (snd r) = cwd sh /\ current_dir (snd r) = current_dir sh) /\
  (hd_error args <> Some "exit" -> running_flag (snd r) = running_flag sh) /\
  (hd_error args <> Some "alias" -> config (snd r) = config sh) /\
  (fst r = 0 \/ fst r = 1 \/ fst r = 127 /\ snd r = sh /\
                            forall a0, hd_error args = Some a0 -> ~ In a0 builtin_names)%Z.
Proof.
  unfold execute_builtin. destruct args as [|a0 rest].
  { frame_done. }
  cbn [hd_error]. builtin_cases a0.
  - unfold cmd_cd, cd_chdir, cd_getcwd. destruct_matches; frame_done.
  - frame_done.
  - frame_done.
  - frame_done.
  - frame_done.
  - frame_done.
  - unfold cmd_alias. destruct_matches; cbn [fst snd];
      try match goal with
          | |- context [add_alias ?n ?v sh] =>
              destruct (add_alias_state n v sh) as [H1 [H2 [H3 [H4 H5]]]]
          end;
      frame_done.
  - frame_done. right. right. repeat split.
    intros b Hb. injection Hb as <-. simpl.
    intros Hc. repeat (destruct Hc as [Hc | Hc]; [congruence |]). exact Hc.
Qed.

(** A line whose first word is no alias and no builtin, and which the
    path search resolves, is run as a child with all its words. *)
Lemma execute_command_external (K : Kernel) (command a0 p : string)
      (rest : list string) (wstatus : Z) (sh : Shell) :
  parse_command command = a0 :: rest ->
  get_alias a0 sh = None ->
  ~ In a0 builtin_names ->
  find_command K (cwd sh) a0 = Found p ->
  sys_spawn K (cwd sh) p (a0 :: rest) = Terminated wstatus ->
  execute_command K command sh
  = Some (if WIFEXITED wstatus then WEXITSTATUS wstatus else EXIT_FAILURE,
          emit [Execv p (a0 :: rest)] (add_to_history command sh)).
Proof.
  intros Hparse Halias Hno Hfind Hspawn. unfold execute_command.
  destruct (String.eqb_spec command "") as [-> | _]; [discriminate Hparse |].
  rewrite Hparse. unfold resolve_alias.
  rewrite get_alias_add_to_history, Halias, (dispatch_other K a0 rest _ Hno).
  unfold execute_external. rewrite cwd_add_to_history, Hfind, Hspawn. reflexivity.
Qed.

Lemma execute_external_none (K : Kernel) (args : list string) (sh : Shell) :
  execute_external K args sh = None -> new_path_overruns K = true.
Proof.
  unfold execute_external. destruct args as [|a0 rest]; [discriminate |].
  destruct (find_command K (cwd sh) a0) as [p | |] eqn:E.
  - destruct (sys_spawn K (cwd sh) p (a0 :: rest)); discriminate.
  - discriminate.
  - intros _. now apply find_command_overrun in E.
Qed.

Lemma execute_external_state (K : Kernel) (args : list string) (sh : Shell)
      (r : Z * Shell) :
  execute_external K args sh = Some r ->
  config (snd r) = config sh /\ history (snd r) = history sh /\ cwd (snd r) = cwd sh /\
  current_dir (snd r) = current_dir sh /\ running_flag (snd r) = running_flag sh /\
  procs (snd r) = procs sh /\
  (0 <= fst r <= 255)%Z.
Proof.
  unfold execute_external. destruct args as [|a0 rest].
  { intros H. injection H as <-. cbn [fst snd]. repeat split; status_lia. }
  destruct (find_command K (cwd sh) a0) as [p | |]; [| | discriminate].
  2: { intros H. injection H as <-. cbn [fst snd]. repeat split; status_lia. }
  destruct (sys_spawn K (cwd sh) p (a0 :: rest)) as [err | err | w];
    intros H; injection H as <-; cbn [fst snd]; repeat split; try status_lia;
    destruct (WIFEXITED w); try apply WEXITSTATUS_range; status_lia.
Qed.

Lemma dispatch_state (K : Kernel) (args : list string) (sh : Shell) (r : Z * Shell) :
  dispatch K args sh = Some r ->
  history (snd r) = history sh /\
  procs (snd r) = procs sh /\
  jobs (config (snd r)) = jobs (config sh) /\
  (hd_error args <> Some "cd" ->
   cwd (snd r) = cwd sh /\ current_dir (snd r) = current_dir sh) /\
  (hd_error args <> Some "exit" -> running_flag (snd r) = running_flag sh) /\
  (hd_error args <> Some "alias" -> config (snd r) = config sh) /\
  (0 <= fst r <= 255)%Z.
Proof.
  unfold dispatch.
  pose proof (execute_builtin_state K args sh) as H.
  pose proof (jobs_execute_builtin K args sh) as Hj.
  destruct (execute_builtin K args sh) as [st sh1]. cbn [fst snd] in H, Hj.
  destruct H as (Hh & Hp & Hcd & Hex & Hal & Hst).
  destruct Hst as [-> | [-> | [-> [-> _]]]].
  - cbn [Z.eqb EXIT_NOT_FOUND]. intros Hr. injection Hr as <-. cbn [fst snd].
    repeat split; try assumption; try lia; try (now apply Hcd).
  - cbn [Z.eqb EXIT_NOT_FOUND Pos.eqb]. intros Hr. injection Hr as <-. cbn [fst snd].
    repeat split; try assumption; try lia; try (now apply Hcd).
  - rewrite Z.eqb_refl. intros Hr.
    destruct (execute_external_state K args sh r Hr) as (Hc & Hh' & Hw & Hd & Hr' & Hp' & Hs).
    repeat split; auto; try lia. now rewrite Hc.
Qed.

Lemma dispatch_none (K : Kernel) (args : list string) (sh : Shell) :
  dispatch K args sh = None -> new_path_overruns K = true.
Proof.
  unfold dispatch. destruct (execute_builtin K args sh) as [st sh1].
  destruct (st =? EXIT_NOT_FOUND)%Z; [apply execute_external_none | discriminate].
Qed.

Lemma resolve_alias_add_to_history (args : list string) (command : string) (sh : Shell) :
  resolve_alias args (add_to_history command sh) = resolve_alias args sh.
Proof.
  unfold resolve_alias. destruct args as [|a0 rest]; [reflexivity |].
  now rewrite get_alias_add_to_history.
Qed.

Lemma execute_command_dispatch (K : Kernel) (command : string) (sh : Shell) :
  command <> "" ->
  execute_command K command sh
  = dispatch K (resolve_alias (parse_command command) sh) (add_to_history command sh).
Proof.
  intros Hne. unfold execute_command. apply String.eqb_neq in Hne. rewrite Hne.
  now rewrite resolve_alias_add_to_history.
Qed.

(** The only run of [execute_command] without a result is the one that
    writes past the end of [new_path]. *)
Lemma execute_command_none (K : Kernel) (command : string) (sh : Shell) :
  execute_command K command sh = None -> new_path_overruns K = true.
Proof.
  unfold execute_command. destruct (command =? "")%string; [discriminate |].
  apply dispatch_none.
Qed.

Lemma jobs_execute_command (K : Kernel) (command : string) (sh : Shell) (r : Z * Shell) :
  execute_command K command sh = Some r ->
  jobs (config (snd r)) = jobs (config sh).
Proof.
  destruct (String.eqb_spec command "") as [-> | Hne].
  - intros H. injection H as <-. reflexivity.
  - rewrite (execute_command_dispatch K command sh Hne). intros H.
    destruct (dispatch_state K _ _ r H) as (_ & _ & Hj & _).
    rewrite Hj. now destruct (add_to_history_state command sh) as (_ & _ & _ & -> & _).
Qed.

(** A statement about the result of a run, together with the fact that
    the only run without a result is the one that overruns [new_path]. *)
Lemma result_or_overrun (K : Kernel) (A : Type) (o : option A) (P : A -> Prop) :
  (o = None -> new_path_overruns K = true) ->
  (forall r, o = Some r -> P r) ->
  match o with
  | Some r => P r
  | None => new_path_overruns K = true
  end.
Proof. intros Hnone Hsome. destruct o as [r|]; [now apply Hsome | now apply Hnone]. Qed.

(** A line of white space alone is not executed and not recorded. *)
Lemma shell_cycle_blank_line (K : Kernel) (line : string) (sh : Shell) :
  all_chars isspace line = true -> shell_cycle K line sh = Some sh.
Proof.
  intros H. unfold shell_cycle, trim_whitespace. rewrite (skip_space_blank line H).
  now destruct (line =? "")%string.
Qed.

(** ** The sweep of [update_jobs] *)

Local Open Scope Z_scope.

Lemma update_job_keeps (i : nat) (j : Job) (ps : Z -> pstate) :
  pid (fst (fst (update_job i j ps))) = pid j /\
  command (fst (fst (update_job i j ps))) = command j.
Proof.
  unfold_update_job;
    repeat match goal with
           | |- context [if ?b then _ else _] => destruct b
           end; split; reflexivity.
Qed.

Lemma update_job_finished (i : nat) (j : Job) (ps : Z -> pstate) :
  running j = false -> update_job i j ps = (j, [], ps).
Proof. intros H. unfold update_job. now rewrite H. Qed.

Lemma update_job_reaps (i : nat) (j : Job) (ps : Z -> pstate) (wstatus : Z) :
  running j = true ->
  0 < pid j ->
  ps (pid j) = PZombie wstatus ->
  fst (fst (update_job i j ps)) = mkJob (pid j) (command j) (WEXITSTATUS wstatus) false.
Proof.
  intros Hrun Hpid Hps. unfold_update_job; try congruence.
  destruct (Z.eqb_spec (pid j) 0); [lia |]. rewrite Z.eqb_refl.
  cbn [fst]. congruence.
Qed.

Lemma update_job_waits (i : nat) (j : Job) (ps : Z -> pstate) :
  ps (pid j) = PRunning -> update_job i j ps = (j, [], ps).
Proof.
  intros Hps. unfold_update_job; try congruence; reflexivity.
Qed.

Lemma update_job_procs (i : nat) (j : Job) (ps : Z -> pstate) (q : Z) :
  (running j = true -> pid j <> q) ->
  snd (update_job i j ps) q = ps q.
Proof.
  intros Hq. unfold_update_job;
    repeat match goal with
           | |- context [if ?b then _ else _] => destruct b
           end; cbn [snd]; try reflexivity;
    (destruct (Z.eqb_spec q (pid j)) as [-> | _]; [exfalso; now apply Hq | reflexivity]).
Qed.

Lemma update_jobs_from_app (js1 js2 : list Job) :
  forall (i : nat) (ps : Z -> pstate),
    update_jobs_from i (js1 ++ js2) ps
    = (let '(r1, o1, ps1) := update_jobs_from i js1 ps in
       let '(r2, o2, ps2) := update_jobs_from (i + length js1)%nat js2 ps1 in
       (r1 ++ r2, o1 ++ o2, ps2))%list.
Proof.
  induction js1 as [|j js1 IH]; intros i ps.
  - simpl. rewrite Nat.add_0_r. now destruct (update_jobs_from i js2 ps) as [[r2 o2] ps2].
  - cbn [app update_jobs_from length].
    destruct (update_job i j ps) as [[j1 o1] ps1].
    rewrite IH. destruct (update_jobs_from (S i) js1 ps1) as [[r1 o1'] ps1'].
    replace (i + S (length js1))%nat with (S i + length js1)%nat by lia.
    destruct (update_jobs_from (S i + length js1) js2 ps1') as [[r2 o2] ps2].
    cbn [app]. now rewrite app_assoc.
Qed.

Lemma update_jobs_from_keeps (js : list Job) :
  forall (i : nat) (ps : Z -> pstate),
    map pid (fst (fst (update_jobs_from i js ps))) = map pid js /\
    map command (fst (fst (update_jobs_from i js ps))) = map command js.
Proof.
  induction js as [|j js IH]; intros i ps; [split; reflexivity |].
  cbn [update_jobs_from].
  pose proof (update_job_keeps i j ps) as [Hp Hc].
  destruct (update_job i j ps) as [[j1 o1] ps1]. simpl in Hp, Hc.
  specialize (IH (S i) ps1).
  destruct (update_jobs_from (S i) js ps1) as [[r o] ps2]. simpl in *.
  destruct IH as [IHp IHc]. split; congruence.
Qed.

Lemma update_jobs_from_length (js : list Job) (i : nat) (ps : Z -> pstate) :
  length (fst (fst (update_jobs_from i js ps))) = length js.
Proof.
  destruct (update_jobs_from_keeps js i ps) as [Hp _].
  apply (f_equal (@length Z)) in Hp. now rewrite !length_map in Hp.
Qed.

Lemma update_jobs_from_procs (js : list Job) (q : Z) :
  (forall j, In j js -> running j = true -> pid j <> q) ->
  forall (i : nat) (ps : Z -> pstate),
    snd (update_jobs_from i js ps) q = ps q.
Proof.
  induction js as [|j js IH]; intros Hq i ps; [reflexivity |].
  cbn [update_jobs_from].
  pose proof (update_job_procs i j ps q (Hq j (or_introl eq_refl))) as H1.
  destruct (update_job i j ps) as [[j1 o1] ps1]. simpl in H1.
  assert (Hq' : forall j', In j' js -> running j' = true -> pid j' <> q).
  { intros j' Hj'. apply Hq. now right. }
  specialize (IH Hq' (S i) ps1).
  destruct (update_jobs_from (S i) js ps1) as [[r o] ps2]. simpl in *. congruence.
Qed.

Lemma update_jobs_from_finished (js : list Job) :
  forall (i n : nat) (ps : Z -> pstate) (j : Job),
    nth_error js n = Some j ->
    running j = false ->
    nth_error (fst (fst (update_jobs_from i js ps))) n = Some j.
Proof.
  induction js as [|j0 js IH]; intros i n ps j Hn Hrun; [now destruct n |].
  cbn [update_jobs_from].
  destruct n as [|n]; simpl in Hn.
  - injection Hn as ->. rewrite (update_job_finished i j ps Hrun).
    now destruct (update_jobs_from (S i) js ps) as [[r o] ps2].
  - destruct (update_job i j0 ps) as [[j1 o1] ps1].
    specialize (IH (S i) n ps1 j Hn Hrun).
    now destruct (update_jobs_from (S i) js ps1) as [[r o] ps2].
Qed.

(** The entry of a running job whose process has terminated, after one
    sweep. *)
Lemma update_jobs_from_reaps (js js' : list Job) (j : Job) (ps : Z -> pstate)
      (wstatus : Z) (i : nat) :
  running j = true ->
  0 < pid j ->
  ps (pid j) = PZombie wstatus ->
  (forall j0, In j0 js -> running j0 = true -> pid j0 <> pid j) ->
  nth_error (fst (fst (update_jobs_from i (js ++ j :: js') ps))) (length js)
  = Some (mkJob (pid j) (command j) (WEXITSTATUS wstatus) false).
Proof.
  intros Hrun Hpid Hps Huniq. rewrite update_jobs_from_app.
  pose proof (update_jobs_from_procs js (pid j) Huniq i ps) as Hps1.
  pose proof (update_jobs_from_length js i ps) as Hlen.
  destruct (update_jobs_from i js ps) as [[r1 o1] ps1]. simpl in Hps1, Hlen.
  cbn [update_jobs_from].
  assert (Hps' : ps1 (pid j) = PZombie wstatus) by congruence.
  pose proof (update_job_reaps (i + length js) j ps1 wstatus Hrun Hpid Hps') as Hj.
  destruct (update_job (i + length js) j ps1) as [[j1 o] ps2]. simpl in Hj.
  destruct (update_jobs_from (S (i + length js)) js' ps2) as [[r2 o2] ps3].
  cbn [fst]. rewrite nth_error_app2 by lia.
  rewrite Hlen, Nat.sub_diag. simpl. now rewrite Hj.
Qed.

Lemma update_job_reaps_output (i : nat) (j : Job) (ps : Z -> pstate) (wstatus : Z) :
  running j = true ->
  0 < pid j ->
  ps (pid j) = PZombie wstatus ->
  snd (fst (update_job i j ps))
  = [Printf (job_done_line i (mkJob (pid j) (command j) (WEXITSTATUS wstatus) false))].
Proof.
  intros Hrun Hpid Hps. unfold_update_job; try congruence.
  destruct (Z.eqb_spec (pid j) 0); [lia |]. rewrite Z.eqb_refl.
  cbn [fst snd]. congruence.
Qed.

Lemma update_job_procs_running (i : nat) (j : Job) (ps : Z -> pstate) (q : Z) :
  ps q = PRunning -> snd (update_job i j ps) q = PRunning.
Proof.
  intros Hq. unfold_update_job;
    repeat match goal with
           | |- context [if ?b then _ else _] => destruct b
           end; cbn [snd]; try exact Hq;
    (destruct (Z.eqb_spec q (pid j)) as [-> | _]; [congruence | exact Hq]).
Qed.

Lemma update_jobs_from_procs_running (js : list Job) (q : Z) :
  forall (i : nat) (ps : Z -> pstate),
    ps q = PRunning -> snd (update_jobs_from i js ps) q = PRunning.
Proof.
  induction js as [|j js IH]; intros i ps Hq; [exact Hq |].
  cbn [update_jobs_from].
  pose proof (update_job_procs_running i j ps q Hq) as H1.
  destruct (update_job i j ps) as [[j1 o1] ps1]. cbn [snd] in H1.
  specialize (IH (S i) ps1 H1).
  now destruct (update_jobs_from (S i) js ps1) as [[r o] ps2].
Qed.

(** The entry of a job whose process is still running, after one sweep. *)
Lemma update_jobs_from_waits (js js' : list Job) (j : Job) (ps : Z -> pstate) (i : nat) :
  ps (pid j) = PRunning ->
  nth_error (fst (fst (update_jobs_from i (js ++ j :: js') ps))) (length js) = Some j.
Proof.
  intros Hps. rewrite update_jobs_from_app.
  pose proof (update_jobs_from_procs_running js (pid j) i ps Hps) as Hps1.
  pose proof (update_jobs_from_length js i ps) as Hlen.
  destruct (update_jobs_from i js ps) as [[r1 o1] ps1]. simpl in Hps1, Hlen.
  cbn [update_jobs_from]. rewrite (update_job_waits _ j ps1 Hps1).
  destruct (update_jobs_from (S (i + length js)%nat) js' ps1) as [[r2 o2] ps3].
  cbn [fst]. rewrite nth_error_app2 by lia.
  now rewrite Hlen, Nat.sub_diag.
Qed.

(** The line that the sweep writes for a job whose process has
    terminated. *)
Lemma update_jobs_from_reaps_output (js js' : list Job) (j : Job) (ps : Z -> pstate)
      (wstatus : Z) (i : nat) :
  running j = true ->
  0 < pid j ->
  ps (pid j) = PZombie wstatus ->
  (forall j0, In j0 js -> running j0 = true -> pid j0 <> pid j) ->
  In (Printf (job_done_line (i + length js)%nat
                            (mkJob (pid j) (command j) (WEXITSTATUS wstatus) false)))
     (snd (fst (update_jobs_from i (js ++ j :: js') ps))).
Proof.
  intros Hrun Hpid Hps Huniq. rewrite update_jobs_from_app.
  pose proof (update_jobs_from_procs js (pid j) Huniq i ps) as Hps1.
  destruct (update_jobs_from i js ps) as [[r1 o1] ps1]. simpl in Hps1.
  cbn [update_jobs_from].
  assert (Hps' : ps1 (pid j) = PZombie wstatus) by congruence.
  pose proof (update_job_reaps_output (i + length js)%nat j ps1 wstatus Hrun Hpid Hps') as Ho.
  destruct (update_job (i + length js)%nat j ps1) as [[j1 o] ps2]. cbn [fst snd] in Ho.
  destruct (update_jobs_from (S (i + length js)%nat) js' ps2) as [[r2 o2] ps3].
  cbn [fst snd]. apply in_or_app. right. rewrite Ho. now left.
Qed.

Local Close Scope Z_scope.

Lemma add_job_room (p : Z) (cmd : string) (sh : Shell) :
  job_count (config sh) < MAX_ARGS ->
  add_job p cmd sh = set_jobs (jobs (config sh) ++ [mkJob p cmd 0 true]) sh.
Proof.
  intros Hroom. unfold add_job.
  destruct (Nat.leb_spec MAX_ARGS (job_count (config sh))); [lia | reflexivity].
Qed.

Lemma add_job_full (p : Z) (cmd : string) (sh : Shell) :
  MAX_ARGS <= job_count (config sh) ->
  add_job p cmd sh = print_error "Maximum number of background jobs reached" sh.
Proof.
  intros Hfull. unfold add_job.
  destruct (Nat.leb_spec MAX_ARGS (job_count (config sh))); [reflexivity | lia].
Qed.

Lemma jobs_update_jobs (sh : Shell) :
  jobs (config (update_jobs sh))
  = fst (fst (update_jobs_from 0 (jobs (config sh)) (procs sh))).
Proof.
  unfold update_jobs.
  now destruct (update_jobs_from 0 (jobs (config sh)) (procs sh)) as [[js o] ps].
Qed.

Local Open Scope Z_scope.

Lemma trace_update_jobs (sh : Shell) :
  trace (update_jobs sh)
  = trace sh ++ snd (fst (update_jobs_from 0 (jobs (config sh)) (procs sh))).
Proof.
  unfold update_jobs.
  now destruct (update_jobs_from 0 (jobs (config sh)) (procs sh)) as [[js o] ps].
Qed.

Local Close Scope Z_scope.

(** ** The loop of [main]: invariants *)

Lemma shell_cycle_none (K : Kernel) (line : string) (sh : Shell) :
  shell_cycle K line sh = None -> new_path_overruns K = true.
Proof.
  unfold shell_cycle. destruct (line =? "")%string; [discriminate |].
  destruct (trim_whitespace line =? "")%string; [discriminate |].
  destruct (execute_command K (trim_whitespace line) sh) as [[st sh1]|] eqn:E;
    [discriminate |].
  intros _. exact (execute_command_none K _ _ E).
Qed.

Lemma main_loop_none (K : Kernel) (lines : list string) :
  forall sh, main_loop K lines sh = None -> new_path_overruns K = true.
Proof.
  induction lines as [|line lines IH]; intros sh; simpl; [discriminate |].
  destruct (running_flag sh); [| discriminate].
  destruct (shell_cycle K line sh) as [sh1|] eqn:E; [apply IH |].
  intros _. exact (shell_cycle_none K _ _ E).
Qed.

(** A property that every command and every sweep keep holds at the end
    of the loop of [main]. *)
Lemma main_loop_invariant (K : Kernel) (P : Shell -> Prop) :
  (forall sh command r, P sh -> execute_command K command sh = Some r -> P (snd r)) ->
  (forall sh, P sh -> P (update_jobs sh)) ->
  forall lines sh sh', P sh -> main_loop K lines sh = Some sh' -> P sh'.
Proof.
  intros Hstep Hsweep lines. induction lines as [|line lines IH]; intros sh sh' HP; simpl.
  { intros H. injection H as <-. exact HP. }
  destruct (running_flag sh); [| intros H; injection H as <-; exact HP].
  destruct (shell_cycle K line sh) as [sh1|] eqn:E; [| discriminate].
  apply IH. unfold shell_cycle in E.
  destruct (line =? "")%string; [injection E as <-; exact HP |].
  destruct (trim_whitespace line =? "")%string; [injection E as <-; exact HP |].
  destruct (execute_command K (trim_whitespace line) sh) as [[st sh2]|] eqn:Ex;
    [| discriminate].
  injection E as <-. apply Hsweep. exact (Hstep sh _ (st, sh2) HP Ex).
Qed.

Lemma aliases_update_jobs (sh : Shell) :
  aliases (config (update_jobs sh)) = aliases (config sh).
Proof.
  unfold update_jobs.
  now destruct (update_jobs_from 0 (jobs (config sh)) (procs sh)) as [[js o] ps].
Qed.

Lemma update_jobs_state (sh : Shell) :
  current_dir (update_jobs sh) = current_dir sh /\ cwd (update_jobs sh) = cwd sh /\
  running_flag (update_jobs sh) = running_flag sh /\
  history (update_jobs sh) = history sh.
Proof.
  unfold update_jobs.
  destruct (update_jobs_from 0 (jobs (config sh)) (procs sh)) as [[js o] ps].
  repeat split.
Qed.

(** ** C1: redirection tokens *)

Lemma redirection_token_is_word (r : string) : In r redirection_tokens -> is_word r.
Proof.
  unfold redirection_tokens. simpl.
  intros [<- | [<- | [<- | [<- | [<- | []]]]]]; reflexivity.
Qed.

(** C1, as the claim has it, fails: the words of ["ls -la > out.txt"] are
    not [ls] and [-la] alone; [>] and [out.txt] stay in the vector, and
    they reach the program that is started. *)
Lemma redirection_not_consumed :
  parse_command "ls -la > out.txt" <> ["ls"; "-la"] /\
  option_map (fun r => trace (snd r))
             (execute_command root_kernel "ls -la > out.txt" root_shell)
  = Some [Execv "/usr/bin/ls" ["ls"; "-la"; ">"; "out.txt"]].
Proof. split; [discriminate | reflexivity]. Qed.

(** C1, amended: [parse_command] splits ["ls -la > out.txt"] into the four
    words [ls], [-la], [>], [out.txt].  None of [<], [>], [>>], [2>], [2>>]
    is recognised: such a token and the word behind it stay where they are
    in the vector, and a line run as an external command hands the whole
    vector, tokens included, to the program. *)
Theorem redirection_tokens_stay_words :
  parse_command "ls -la > out.txt" = ["ls"; "-la"; ">"; "out.txt"] /\
  (forall (pre post : list string) (r f : string),
      In r redirection_tokens ->
      Forall is_word (pre ++ f :: post) ->
      length (pre ++ r :: f :: post) <= MAX_ARGS - 1 ->
      parse_command (String.concat " " (pre ++ r :: f :: post)) = pre ++ r :: f :: post) /\
  (forall (K : Kernel) (sh : Shell) (pre post : list string) (r f a0 p : string)
          (rest : list string) (wstatus : Z),
      In r redirection_tokens ->
      Forall is_word (pre ++ f :: post) ->
      length (pre ++ r :: f :: post) <= MAX_ARGS - 1 ->
      pre ++ r :: f :: post = a0 :: rest ->
      get_alias a0 sh = None ->
      ~ In a0 builtin_names ->
      find_command K (cwd sh) a0 = Found p ->
      sys_spawn K (cwd sh) p (a0 :: rest) = Terminated wstatus ->
      option_map (fun res => trace (snd res))
                 (execute_command K (String.concat " " (pre ++ r :: f :: post)) sh)
      = Some (trace sh ++ [Execv p (pre ++ r :: f :: post)])).
Proof.
  assert (Hgen : forall (pre post : list string) (r f : string),
             In r redirection_tokens ->
             Forall is_word (pre ++ f :: post) ->
             length (pre ++ r :: f :: post) <= MAX_ARGS - 1 ->
             parse_command (String.concat " " (pre ++ r :: f :: post))
             = pre ++ r :: f :: post).
  { intros pre post r f Hr Hws Hlen. apply parse_command_words; [| exact Hlen].
    apply Forall_app in Hws. destruct Hws as [Hpre Hpost].
    apply Forall_app. split; [exact Hpre |].
    constructor; [now apply redirection_token_is_word | exact Hpost]. }
  split; [reflexivity |]. split; [exact Hgen |].
  intros K sh pre post r f a0 p rest wstatus Hr Hws Hlen Hargs Halias Hno Hfind Hspawn.
  rewrite (execute_command_external K _ a0 p rest wstatus sh); try assumption.
  - rewrite Hargs. cbn [option_map snd emit trace]. now rewrite trace_add_to_history.
  - rewrite <- Hargs. now apply Hgen.
Qed.

Lemma redirection_tokens_stay_words_witness :
  parse_command (String.concat " " (["ls"; "-la"] ++ ">" :: "out.txt" :: []))
  = ["ls"; "-la"] ++ ">" :: "out.txt" :: [] /\
  option_map (fun res => trace (snd res))
             (execute_command root_kernel
                (String.concat " " (["ls"; "-la"] ++ ">" :: "out.txt" :: [])) root_shell)
  = Some (trace root_shell ++ [Execv "/usr/bin/ls" (["ls"; "-la"] ++ ">" :: "out.txt" :: [])]).
Proof.
  destruct redirection_tokens_stay_words as [_ [Hparse Hexec]].
  split.
  - apply Hparse.
    + simpl. tauto.
    + repeat constructor.
    + vm_compute. lia.
  - apply (Hexec root_kernel root_shell ["ls"; "-la"] [] ">" "out.txt" "ls" "/usr/bin/ls"
                 ["-la"; ">"; "out.txt"] 0%Z).
    + simpl. tauto.
    + repeat constructor.
    + vm_compute. lia.
    + reflexivity.
    + reflexivity.
    + simpl. intros H. repeat (destruct H as [H | H]; [discriminate H |]). exact H.
    + reflexivity.
    + reflexivity.
Defined.

(** ** C2: the background marker *)

(** C2, as the claim has it, fails: the words of ["sleep 5 &"] are not
    [sleep] and [5] alone, and running the line registers no job. *)
Lemma background_marker_not_consumed :
  parse_command "sleep 5 &" <> ["sleep"; "5"] /\
  option_map (fun r => (jobs (config (snd r)), trace (snd r)))
             (execute_command root_kernel "sleep 5 &" root_shell)
  = Some ([], [Execv "/bin/sleep" ["sleep"; "5"; "&"]]).
Proof. split; [discriminate | reflexivity]. Qed.

(** C2, amended: [parse_command] splits ["sleep 5 &"] into the three words
    [sleep], [5], [&].  A trailing [&] is not recognised as a marker: it
    stays the last word of the vector, and [execute_command] never touches
    the job table, whatever the line. *)
Theorem background_marker_stays_word :
  parse_command "sleep 5 &" = ["sleep"; "5"; "&"] /\
  (forall ws : list string,
      Forall is_word ws ->
      length ws < MAX_ARGS - 1 ->
      parse_command (String.concat " " (ws ++ ["&"])) = ws ++ ["&"]) /\
  (forall (K : Kernel) (command : string) (sh : Shell),
      match execute_command K command sh with
      | Some r => jobs (config (snd r)) = jobs (config sh)
      | None => new_path_overruns K = true
      end).
Proof.
  split; [reflexivity |]. split.
  - intros ws Hws Hlen. apply parse_command_words.
    + apply Forall_app. split; [exact Hws | repeat constructor].
    + rewrite length_app. cbn [length]. lia.
  - intros K command sh. apply result_or_overrun.
    + apply execute_command_none.
    + apply jobs_execute_command.
Qed.

Lemma background_marker_stays_word_witness :
  parse_command (String.concat " " (["sleep"; "5"] ++ ["&"])) = ["sleep"; "5"] ++ ["&"].
Proof.
  destruct background_marker_stays_word as [_ [Hparse _]].
  apply Hparse.
  - repeat constructor.
  - vm_compute. lia.
Defined.

(** ** C10: the word limit of [parse_command] *)

(** C10: for every line the vector of [parse_command] holds the first
    [MAX_ARGS - 1 = 511] words of the line and no more, [argc] is its
    length, and the terminating null, stored at index [argc], lies inside
    the [MAX_ARGS] entries that were allocated.  The truncated vector is
    what the builtin receives when the first word (no alias) names one,
    and what the external command receives otherwise.  Nothing is written
    about the words that are dropped: for a program that is found and
    run, all that the line adds to the output is the program started with
    the truncated vector. *)
Theorem parse_command_word_limit (command : string) :
  MAX_ARGS - 1 = 511 /\
  parse_command command = firstn (MAX_ARGS - 1) (strtok is_blank command) /\
  length (parse_command command) <= MAX_ARGS - 1 /\
  snd (parse_command_argc command) = length (parse_command command) /\
  snd (parse_command_argc command) < MAX_ARGS /\
  (forall (K : Kernel) (sh : Shell) (a0 : string) (rest : list string),
      firstn (MAX_ARGS - 1) (strtok is_blank command) = a0 :: rest ->
      get_alias a0 sh = None ->
      (In a0 builtin_names ->
       execute_command K command sh
       = Some (execute_builtin K (firstn (MAX_ARGS - 1) (strtok is_blank command))
                               (add_to_history command sh))) /\
      (~ In a0 builtin_names ->
       execute_command K command sh
       = execute_external K (firstn (MAX_ARGS - 1) (strtok is_blank command))
                          (add_to_history command sh)) /\
      (forall p wstatus,
          ~ In a0 builtin_names ->
          find_command K (cwd sh) a0 = Found p ->
          sys_spawn K (cwd sh) p (a0 :: rest) = Terminated wstatus ->
          option_map (fun r => trace (snd r)) (execute_command K command sh)
          = Some (trace sh ++ [Execv p (firstn (MAX_ARGS - 1) (strtok is_blank command))]))).
Proof.
  assert (Hlen : length (parse_command command) <= MAX_ARGS - 1).
  { rewrite parse_command_firstn. apply firstn_le_length. }
  split; [reflexivity |]. split; [apply parse_command_firstn |].
  split; [exact Hlen |]. split; [apply parse_command_argc_length |].
  split; [rewrite parse_command_argc_length; unfold MAX_ARGS in *; lia |].
  intros K sh a0 rest Hargs Halias.
  rewrite <- parse_command_firstn in *.
  assert (Hne : command <> "") by (intros ->; discriminate Hargs).
  assert (Hdisp : execute_command K command sh
                  = dispatch K (a0 :: rest) (add_to_history command sh)).
  { rewrite (execute_command_dispatch K command sh Hne), Hargs.
    unfold resolve_alias. now rewrite Halias. }
  split; [| split].
  - intros Hin. rewrite Hdisp, Hargs. unfold dispatch.
    pose proof (execute_builtin_state K (a0 :: rest) (add_to_history command sh)) as H.
    destruct (execute_builtin K (a0 :: rest) (add_to_history command sh)) as [st sh1].
    cbn [fst snd] in H. destruct H as (_ & _ & _ & _ & _ & Hst).
    destruct Hst as [-> | [-> | [_ [_ Hno]]]]; [reflexivity | reflexivity |].
    exfalso. apply (Hno a0 eq_refl Hin).
  - intros Hno. rewrite Hdisp, Hargs. now apply dispatch_other.
  - intros p wstatus Hno Hfind Hspawn.
    rewrite (execute_command_external K command a0 p rest wstatus sh Hargs Halias Hno
                                      Hfind Hspawn).
    cbn [option_map snd emit trace]. now rewrite trace_add_to_history, Hargs.
Qed.

Lemma parse_command_word_limit_witness :
  execute_command demo_kernel "pwd here" demo_shell
  = Some (execute_builtin demo_kernel
            (firstn (MAX_ARGS - 1) (strtok is_blank "pwd here"))
            (add_to_history "pwd here" demo_shell)) /\
  option_map (fun r => trace (snd r)) (execute_command demo_kernel "/bin/ls -la" demo_shell)
  = Some (trace demo_shell
          ++ [Execv "/bin/ls" (firstn (MAX_ARGS - 1) (strtok is_blank "/bin/ls -la"))]).
Proof.
  split.
  - destruct (parse_command_word_limit "pwd here") as (_ & _ & _ & _ & _ & H).
    destruct (H demo_kernel demo_shell "pwd" ["here"] eq_refl eq_refl) as [Hb _].
    apply Hb. simpl. tauto.
  - destruct (parse_command_word_limit "/bin/ls -la") as (_ & _ & _ & _ & _ & H).
    destruct (H demo_kernel demo_shell "/bin/ls" ["-la"] eq_refl eq_refl) as (_ & _ & He).
    apply (He "/bin/ls" 0%Z); [| reflexivity | reflexivity].
    simpl. intros F. repeat (destruct F as [F | F]; [discriminate F |]). exact F.
Defined.

(** A line of 600 words: 511 are kept, they are what the program
    receives, and nothing else is written. *)
Example parse_command_600_words :
  let line := String.concat " " ("/bin/ls" :: repeat "x" 599) in
  length (strtok is_blank line) = 600 /\
  parse_command line = "/bin/ls" :: repeat "x" 510 /\
  option_map (fun r => trace (snd r)) (execute_command demo_kernel line demo_shell)
  = Some [Execv "/bin/ls" ("/bin/ls" :: repeat "x" 510)].
Proof. vm_compute. repeat split. Qed.

(** ** C4 and C6: aliases *)

Lemma execute_command_alias (K : Kernel) (command a0 alias_value : string)
      (rest : list string) (sh : Shell) :
  parse_command command = a0 :: rest ->
  get_alias a0 sh = Some alias_value ->
  execute_command K command sh
  = dispatch K (parse_command alias_value) (add_to_history command sh).
Proof.
  intros Hparse Halias. unfold execute_command.
  destruct (String.eqb_spec command "") as [-> | _]; [discriminate Hparse |].
  rewrite Hparse. unfold resolve_alias.
  now rewrite get_alias_add_to_history, Halias.
Qed.

Lemma lookup_overwrite_some (l l' : list Alias) (n v : string) :
  overwrite_alias l n v = Some l' -> lookup_alias l' n = Some v.
Proof.
  revert l'. induction l as [|a l IH]; intros l' H; simpl in H; [discriminate |].
  destruct (String.eqb_spec (name a) n) as [E | E].
  - injection H as <-. simpl. rewrite E, String.eqb_refl. reflexivity.
  - destruct (overwrite_alias l n v) as [r|]; [| discriminate].
    injection H as <-. simpl.
    destruct (String.eqb_spec (name a) n); [contradiction | now apply IH].
Qed.

Lemma lookup_overwrite_none (l : list Alias) (n v : string) :
  overwrite_alias l n v = None -> lookup_alias (l ++ [mkAlias n v]) n = Some v.
Proof.
  induction l as [|a l IH]; simpl; intros H.
  - now rewrite String.eqb_refl.
  - destruct (name a =? n)%string; [discriminate |].
    destruct (overwrite_alias l n v); [discriminate | now apply IH].
Qed.

(** Below its capacity the table answers a lookup with the value that was
    defined last. *)
Lemma get_alias_add_alias (n v : string) (sh : Shell) :
  alias_count (config sh) < MAX_ALIASES ->
  get_alias n (add_alias n v sh) = Some v.
Proof.
  intros Hroom. unfold add_alias.
  destruct (Nat.leb_spec MAX_ALIASES (alias_count (config sh))) as [Hfull | _]; [lia |].
  unfold get_alias.
  destruct (overwrite_alias (aliases (config sh)) n v) as [l'|] eqn:E; simpl.
  - exact (lookup_overwrite_some _ _ _ _ E).
  - exact (lookup_overwrite_none _ _ _ E).
Qed.

(** C4: when the first word of a line names an alias, the command that is
    dispatched is made of the words of the alias value and nothing else:
    the words of the line behind the first one do not reach it, so two
    lines that start with the same alias are dispatched alike, and a
    program that the alias value names is started with the words of the
    alias value as its argument vector.  With [ll] defined as ["ls -la"],
    the line ["ll extra"] starts [ls] with the single argument [-la]. *)
Theorem alias_discards_rest_of_line :
  (forall (K : Kernel) (sh : Shell) (command a0 alias_value : string) (rest : list string),
      parse_command command = a0 :: rest ->
      get_alias a0 sh = Some alias_value ->
      execute_command K command sh
      = dispatch K (parse_command alias_value) (add_to_history command sh)) /\
  (forall (K : Kernel) (sh : Shell) (command n v : string) (rest : list string),
      alias_count (config sh) < MAX_ALIASES ->
      parse_command command = n :: rest ->
      execute_command K command (add_alias n v sh)
      = dispatch K (parse_command v) (add_to_history command (add_alias n v sh))) /\
  (forall (K : Kernel) (sh : Shell) (command a0 alias_value a1 p : string)
          (rest rest1 : list string) (wstatus : Z),
      parse_command command = a0 :: rest ->
      get_alias a0 sh = Some alias_value ->
      parse_command alias_value = a1 :: rest1 ->
      ~ In a1 builtin_names ->
      find_command K (cwd sh) a1 = Found p ->
      sys_spawn K (cwd sh) p (a1 :: rest1) = Terminated wstatus ->
      option_map (fun r => trace (snd r)) (execute_command K command sh)
      = Some (trace sh ++ [Execv p (parse_command alias_value)])) /\
  option_map (fun r => trace (snd r))
             (execute_command root_kernel "ll extra" (add_alias "ll" "ls -la" root_shell))
  = Some [Execv "/usr/bin/ls" ["ls"; "-la"]].
Proof.
  split; [| split; [| split]].
  - intros K sh command a0 alias_value rest. apply execute_command_alias.
  - intros K sh command n v rest Hroom Hparse.
    apply (execute_command_alias K command n v rest); [exact Hparse |].
    now apply get_alias_add_alias.
  - intros K sh command a0 alias_value a1 p rest rest1 wstatus
           Hparse Halias Hvalue Hno Hfind Hspawn.
    rewrite (execute_command_alias K command a0 alias_value rest sh Hparse Halias).
    rewrite Hvalue, (dispatch_other K a1 rest1 _ Hno).
    unfold execute_external. rewrite cwd_add_to_history, Hfind, Hspawn.
    cbn [option_map snd emit trace]. now rewrite trace_add_to_history.
  - reflexivity.
Qed.

Lemma alias_discards_rest_of_line_witness :
  execute_command root_kernel "ll extra more" (add_alias "ll" "ls -la" root_shell)
  = dispatch root_kernel (parse_command "ls -la")
             (add_to_history "ll extra more" (add_alias "ll" "ls -la" root_shell)) /\
  execute_command root_kernel "ll extra" (add_alias "ll" "ls -la" root_shell)
  = dispatch root_kernel (parse_command "ls -la")
             (add_to_history "ll extra" (add_alias "ll" "ls -la" root_shell)) /\
  option_map (fun r => trace (snd r))
             (execute_command demo_kernel "ll extra"
                              (add_alias "ll" "/bin/ls -la" demo_shell))
  = Some (trace (add_alias "ll" "/bin/ls -la" demo_shell)
          ++ [Execv "/bin/ls" (parse_command "/bin/ls -la")]).
Proof.
  destruct alias_discards_rest_of_line as [H1 [H2 [H3 _]]].
  split; [| split].
  - apply (H1 root_kernel _ "ll extra more" "ll" "ls -la" ["extra"; "more"]); reflexivity.
  - apply (H2 root_kernel root_shell "ll extra" "ll" "ls -la" ["extra"]);
      [vm_compute; lia | reflexivity].
  - apply (H3 demo_kernel _ "ll extra" "ll" "/bin/ls -la" "/bin/ls" "/bin/ls"
              ["extra"] ["-la"] 0%Z);
      [reflexivity | reflexivity | reflexivity | | reflexivity | reflexivity].
    simpl. intros F. repeat (destruct F as [F | F]; [discriminate F |]). exact F.
Defined.

(** C6: an alias is expanded once.  The first word of the alias value is
    looked up among the builtins and on the search path, and never in the
    alias table, whether or not it names an alias itself.  With [a]
    defined as ["b"] and [b] as ["c"], the line ["a"] starts the program
    [b]; with [a] defined as ["a"], the line ["a"] starts the program
    [a]. *)
Theorem alias_expanded_once :
  (forall (K : Kernel) (sh : Shell) (command a0 alias_value a1 : string)
          (rest rest1 : list string),
      parse_command command = a0 :: rest ->
      get_alias a0 sh = Some alias_value ->
      parse_command alias_value = a1 :: rest1 ->
      ~ In a1 builtin_names ->
      execute_command K command sh
      = execute_external K (a1 :: rest1) (add_to_history command sh)) /\
  (let sh := add_alias "b" "c" (add_alias "a" "b" root_shell) in
   get_alias "a" sh = Some "b" /\ get_alias "b" sh = Some "c" /\
   execute_command root_kernel "a" sh
   = Some (EXIT_SUCCESS, emit [Execv "/bin/b" ["b"]] (add_to_history "a" sh))) /\
  (let sh := add_alias "a" "a" root_shell in
   get_alias "a" sh = Some "a" /\
   execute_command root_kernel "a" sh
   = Some (EXIT_SUCCESS, emit [Execv "/bin/a" ["a"]] (add_to_history "a" sh))).
Proof.
  split; [| split].
  - intros K sh command a0 alias_value a1 rest rest1 Hparse Halias Hvalue Hno.
    rewrite (execute_command_alias K command a0 alias_value rest sh Hparse Halias).
    rewrite Hvalue. now apply dispatch_other.
  - repeat split.
  - repeat split.
Qed.

Lemma alias_expanded_once_witness :
  let sh := add_alias "b" "c" (add_alias "a" "b" root_shell) in
  execute_command root_kernel "a" sh
  = execute_external root_kernel ["b"] (add_to_history "a" sh).
Proof.
  destruct alias_expanded_once as [H _].
  apply (H root_kernel _ "a" "a" "b" "b" [] []); try reflexivity.
  simpl. intros F. repeat (destruct F as [F | F]; [discriminate F |]). exact F.
Defined.

(** ** C5: command not found *)

(** C5: a line whose first word is no alias and no builtin.  When the path
    search ends without a match, the status is 127, one diagnostic is
    written, and the current directory, the alias table, the job table and
    the [running] flag are what they were, so the loop of [main] goes on.
    But for a bare name the search ends at all only when the text of
    [new_path] fits its buffer: with [HOME] longer than one character,
    [find_command] writes past the end of [new_path] and the run has no
    defined result.  So it is for the line [frobnicate -x] with the home
    directory [/home/u]: 71 characters are allocated for, 77 are
    written. *)
Theorem command_not_found (K : Kernel) (sh : Shell) (command a0 : string)
        (rest : list string) :
  parse_command command = a0 :: rest ->
  get_alias a0 sh = None ->
  ~ In a0 builtin_names ->
  (find_command K (cwd sh) a0 = NotFound ->
   exists r,
     execute_command K command sh = Some r /\
     fst r = 127%Z /\
     trace (snd r) = trace sh ++ [PrintError (a0 ++ ": command not found")] /\
     current_dir (snd r) = current_dir sh /\
     cwd (snd r) = cwd sh /\
     config (snd r) = config sh /\
     running_flag (snd r) = running_flag sh /\
     history (snd r) = history sh ++ [command]) /\
  (forall home,
      has_char "/" a0 = false ->
      sys_getenv K "HOME" = Some home ->
      1 < String.length home ->
      find_command K (cwd sh) a0 = Overrun /\ execute_command K command sh = None) /\
  (total_len demo_kernel = 71 /\
   String.length (new_path demo_kernel) = 77 /\
   find_command demo_kernel (cwd demo_shell) "frobnicate" = Overrun /\
   execute_command demo_kernel "frobnicate -x" demo_shell = None).
Proof.
  intros Hparse Halias Hno.
  assert (Hne : command <> "") by (intros ->; discriminate Hparse).
  assert (Hexec : execute_command K command sh
                  = execute_external K (a0 :: rest) (add_to_history command sh)).
  { rewrite (execute_command_dispatch K command sh Hne), Hparse.
    unfold resolve_alias. rewrite Halias. now apply dispatch_other. }
  split; [| split].
  - intros Hfind. rewrite Hexec. unfold execute_external.
    rewrite cwd_add_to_history, Hfind. eexists. split; [reflexivity |].
    unfold add_to_history. apply String.eqb_neq in Hne. rewrite Hne.
    repeat split.
  - intros home Hbare Hhome Hlen.
    assert (Hover : find_command K (cwd sh) a0 = Overrun).
    { apply find_command_overrun. split; [exact Hbare |].
      apply new_path_overruns_iff. exists home. auto. }
    split; [exact Hover |].
    rewrite Hexec. unfold execute_external. now rewrite cwd_add_to_history, Hover.
  - repeat split.
Qed.

Lemma command_not_found_witness :
  (exists r,
      execute_command root_kernel "frobnicate -x" root_shell = Some r /\
      fst r = 127%Z /\
      trace (snd r) = trace root_shell ++ [PrintError ("frobnicate" ++ ": command not found")] /\
      current_dir (snd r) = current_dir root_shell /\
      cwd (snd r) = cwd root_shell /\
      config (snd r) = config root_shell /\
      running_flag (snd r) = running_flag root_shell /\
      history (snd r) = history root_shell ++ ["frobnicate -x"]) /\
  (find_command demo_kernel (cwd demo_shell) "frobnicate" = Overrun /\
   execute_command demo_kernel "frobnicate -x" demo_shell = None).
Proof.
  assert (Hno : ~ In "frobnicate" builtin_names).
  { simpl. intros F. repeat (destruct F as [F | F]; [discriminate F |]). exact F. }
  split.
  - destruct (command_not_found root_kernel root_shell "frobnicate -x" "frobnicate" ["-x"]
                                eq_refl eq_refl Hno) as [H _].
    apply H. reflexivity.
  - destruct (command_not_found demo_kernel demo_shell "frobnicate -x" "frobnicate" ["-x"]
                                eq_refl eq_refl Hno) as (_ & H & _).
    apply (H "/home/u"); [reflexivity | reflexivity | vm_compute; lia].
Defined.

(** ** C7: [add_alias] *)

Lemma add_alias_full (n v : string) (sh : Shell) :
  MAX_ALIASES <= alias_count (config sh) ->
  add_alias n v sh = print_error "Maximum number of aliases reached" sh.
Proof.
  intros Hfull. unfold add_alias.
  destruct (Nat.leb_spec MAX_ALIASES (alias_count (config sh))); [reflexivity | lia].
Qed.

Lemma overwrite_alias_length (l l' : list Alias) (n v : string) :
  overwrite_alias l n v = Some l' -> length l' = length l /\ map name l' = map name l.
Proof.
  revert l'. induction l as [|a l IH]; intros l' H; simpl in H; [discriminate |].
  destruct (name a =? n)%string.
  - injection H as <-. split; reflexivity.
  - destruct (overwrite_alias l n v) as [r|]; [| discriminate].
    injection H as <-. destruct (IH r eq_refl) as [Hl Hn]. simpl. split; congruence.
Qed.

Lemma overwrite_alias_present (l : list Alias) (n v old : string) :
  lookup_alias l n = Some old -> exists l', overwrite_alias l n v = Some l'.
Proof.
  induction l as [|a l IH]; simpl; intros H; [discriminate |].
  destruct (name a =? n)%string; [eauto |].
  destruct (IH H) as [r ->]. simpl. eauto.
Qed.

(** Below the capacity, defining a name that is present overwrites its
    value and keeps the number and the names of the entries. *)
Lemma add_alias_overwrites (n v old : string) (sh : Shell) :
  alias_count (config sh) < MAX_ALIASES ->
  get_alias n sh = Some old ->
  get_alias n (add_alias n v sh) = Some v /\
  alias_count (config (add_alias n v sh)) = alias_count (config sh) /\
  map name (aliases (config (add_alias n v sh))) = map name (aliases (config sh)).
Proof.
  intros Hroom Hold. split; [now apply get_alias_add_alias |].
  unfold add_alias.
  destruct (Nat.leb_spec MAX_ALIASES (alias_count (config sh))) as [Hfull | _]; [lia |].
  destruct (overwrite_alias_present _ n v old Hold) as [l' E]. rewrite E.
  destruct (overwrite_alias_length _ _ _ _ E) as [Hl Hn]. split; assumption.
Qed.

(** At the capacity, defining a name that is absent changes nothing in
    the table. *)
Lemma add_alias_full_absent (n v : string) (sh : Shell) :
  MAX_ALIASES <= alias_count (config sh) ->
  get_alias n sh = None ->
  config (add_alias n v sh) = config sh /\
  trace (add_alias n v sh) = trace sh ++ [PrintError "Maximum number of aliases reached"].
Proof.
  intros Hfull _. rewrite (add_alias_full n v sh Hfull). split; reflexivity.
Qed.

(** C7, where the code departs from it: a table that holds [MAX_ALIASES]
    entries, [a0] among them with the value [old].  Defining [a0] again
    with the value [new], by [add_alias] or by the line ["alias a0=new"],
    is refused like a definition of a new name: the diagnostic is written
    and [a0] keeps the value [old]. *)
Theorem add_alias_full_table_keeps_old_value :
  let sh := define_aliases MAX_ALIASES demo_shell in
  alias_count (config sh) = MAX_ALIASES /\
  get_alias "a0" sh = Some "old" /\
  add_alias "a0" "new" sh = print_error "Maximum number of aliases reached" sh /\
  get_alias "a0" (add_alias "a0" "new" sh) = Some "old" /\
  option_map (fun r => get_alias "a0" (snd r))
             (execute_command demo_kernel "alias a0=new" sh)
  = Some (Some "old") /\
  get_alias "a0" (add_alias "a0" "new" sh) <> Some "new".
Proof.
  cbv zeta.
  split; [vm_compute; reflexivity |].
  split; [vm_compute; reflexivity |].
  split; [vm_compute; reflexivity |].
  split; [vm_compute; reflexivity |].
  split; [vm_compute; reflexivity |].
  vm_compute. discriminate.
Qed.

(** ** C8: [cd] and [pwd] *)

Lemma cmd_cd_target (K : Kernel) (args : list string) (sh : Shell) :
  cmd_cd K args sh
  = match cd_target K args with
    | None => (EXIT_FAILURE, print_error "HOME environment variable not set" sh)
    | Some target => cd_chdir K target sh
    end.
Proof.
  unfold cmd_cd, cd_target, arg_at.
  destruct args as [|a0 [|dir more]]; simpl; destruct (sys_getenv K "HOME"); reflexivity.
Qed.



(** ** C9: the search order of [find_command] *)

Lemma strtok_new_path (l : list string) (f : string -> string) (p : string) :
  strtok is_colon (fold_left (fun acc sp => (acc ++ ":" ++ f sp)%string) l p)
  = strtok is_colon p ++ flat_map (fun sp => strtok is_colon (f sp)) l.
Proof.
  revert p. induction l as [|sp l IH]; intros p; simpl.
  - now rewrite app_nil_r.
  - rewrite IH. rewrite (strtok_sep is_colon ":" p (f sp) eq_refl).
    now rewrite <- app_assoc.
Qed.

(** The directories that [find_command] goes through when the text of
    [new_path] fits: the home entry is cut at the colons of [HOME]. *)
Lemma find_command_dirs (K : Kernel) :
  strtok is_colon (new_path K)
  = strtok is_colon (path_env K)
    ++ ["/bin"; "/sbin"; "/usr/bin"; "/usr/sbin"; "/usr/local/bin"]
    ++ strtok is_colon (expand_home K "~/.local/bin").
Proof.
  unfold new_path. rewrite strtok_new_path. f_equal.
  unfold standard_paths. cbn [flat_map]. now rewrite app_nil_r.
Qed.

Lemma search_list_dirs (K : Kernel) (home : string) :
  search_list K home
  = (strtok is_colon (path_env K)
     ++ ["/bin"; "/sbin"; "/usr/bin"; "/usr/sbin"; "/usr/local/bin"])
    ++ [(home ++ "/.local/bin")%string].
Proof. unfold search_list. rewrite <- app_assoc. reflexivity. Qed.

Lemma search_path_first (K : Kernel) (wd cmd dir : string) (before rest : list string) :
  (forall d, In d before -> sys_access_x K wd (full_path cmd d) = false) ->
  sys_access_x K wd (full_path cmd dir) = true ->
  search_path K wd (before ++ dir :: rest) cmd = Some (full_path cmd dir).
Proof.
  intros Hbefore Hdir. induction before as [|d before IH]; simpl.
  - now rewrite Hdir.
  - rewrite (Hbefore d (or_introl eq_refl)). apply IH.
    intros d' Hd'. apply Hbefore. now right.
Qed.

Lemma home_entry_is_token (home : string) :
  has_char ":" home = false ->
  is_token is_colon (home ++ "/.local/bin") = true.
Proof.
  intros Hhome. unfold is_token. apply andb_true_iff. split.
  - destruct home; reflexivity.
  - unfold is_colon. rewrite all_chars_append.
    rewrite (has_char_all_chars ":" home Hhome). reflexivity.
Qed.

Lemma new_path_fits (K : Kernel) (home : string) :
  sys_getenv K "HOME" = Some home ->
  String.length home <= 1 ->
  new_path_overruns K = false.
Proof.
  intros Hhome Hlen. destruct (new_path_overruns K) eqn:E; [| reflexivity].
  apply new_path_overruns_iff in E. destruct E as [h [Hh Hl]].
  rewrite Hhome in Hh. injection Hh as <-. lia.
Qed.

Lemma new_path_fits_unset (K : Kernel) :
  sys_getenv K "HOME" = None -> new_path_overruns K = false.
Proof.
  intros Hhome. destruct (new_path_overruns K) eqn:E; [| reflexivity].
  apply new_path_overruns_iff in E. destruct E as [h [Hh _]]. congruence.
Qed.

(** C9: a name with a [/] is tested as it is and returned as it is.  For a
    bare name the search is defined only while the text of [new_path] fits
    its buffer, that is with [HOME] unset or at most one character long.
    Then, with the home directory [home], a name that is executable in
    more than one directory of the search list (the entries of the
    search-path variable, then [/bin], [/sbin], [/usr/bin], [/usr/sbin],
    [/usr/local/bin] and [home/.local/bin]) is resolved in the first of
    these directories, and when [home] holds no colon the directories are
    tried in the order of the list; with [HOME] unset the last entry is
    [~/.local/bin] as it stands.  With [HOME] longer than one character,
    [find_command] writes past the end of [new_path] for every bare name:
    so it is for [ls] with the home directory [/home/u]. *)
Theorem find_command_first_directory (K : Kernel) (wd cmd : string) :
  (has_char "/" cmd = true ->
   find_command K wd cmd = if sys_access_x K wd cmd then Found cmd else NotFound) /\
  (forall (home : string) (before after : list string) (dir dir2 : string),
      has_char "/" cmd = false ->
      sys_getenv K "HOME" = Some home ->
      String.length home <= 1 ->
      search_list K home = before ++ dir :: after ->
      (forall d, In d before -> sys_access_x K wd (full_path cmd d) = false) ->
      sys_access_x K wd (full_path cmd dir) = true ->
      In dir2 after ->
      sys_access_x K wd (full_path cmd dir2) = true ->
      find_command K wd cmd = Found (full_path cmd dir)) /\
  (forall home : string,
      has_char "/" cmd = false ->
      sys_getenv K "HOME" = Some home ->
      String.length home <= 1 ->
      has_char ":" home = false ->
      find_command K wd cmd
      = match search_path K wd (search_list K home) cmd with
        | Some p => Found p
        | None => NotFound
        end) /\
  (has_char "/" cmd = false ->
   sys_getenv K "HOME" = None ->
   find_command K wd cmd
   = match search_path K wd
             (strtok is_colon (path_env K)
              ++ ["/bin"; "/sbin"; "/usr/bin"; "/usr/sbin"; "/usr/local/bin";
                  "~/.local/bin"]) cmd with
     | Some p => Found p
     | None => NotFound
     end) /\
  (forall home : string,
      has_char "/" cmd = false ->
      sys_getenv K "HOME" = Some home ->
      1 < String.length home ->
      find_command K wd cmd = Overrun) /\
  (total_len demo_kernel = 71 /\
   String.length (new_path demo_kernel) = 77 /\
   find_command demo_kernel "/home/u" "ls" = Overrun).
Proof.
  split; [| split; [| split; [| split; [| split]]]].
  - intros Hsep. unfold find_command. now rewrite Hsep.
  - intros home before after dir dir2 Hbare Hhome Hlen Hsplit Hbefore Hdir Hin2 _.
    unfold find_command. rewrite Hbare, (new_path_fits K home Hhome Hlen), find_command_dirs.
    rewrite search_list_dirs in Hsplit.
    destruct (exists_last (l := after)) as [after' [x Hafter]].
    { intros ->. exact Hin2. }
    subst after.
    change (before ++ dir :: after' ++ [x]) with (before ++ (dir :: after') ++ [x]) in Hsplit.
    rewrite app_assoc in Hsplit. apply app_inj_tail in Hsplit. destruct Hsplit as [Hcommon _].
    rewrite app_assoc, Hcommon, <- app_assoc. cbn [app].
    now rewrite (search_path_first K wd cmd dir before _ Hbefore Hdir).
  - intros home Hbare Hhome Hlen Hcolon.
    unfold find_command. rewrite Hbare, (new_path_fits K home Hhome Hlen), find_command_dirs.
    unfold expand_home. rewrite Hhome.
    rewrite (strtok_token is_colon _ (home_entry_is_token home Hcolon)).
    rewrite search_list_dirs, <- app_assoc. reflexivity.
  - intros Hbare Hhome.
    unfold find_command. rewrite Hbare, (new_path_fits_unset K Hhome), find_command_dirs.
    unfold expand_home. rewrite Hhome.
    rewrite (strtok_token is_colon "~/.local/bin" eq_refl). reflexivity.
  - intros home Hbare Hhome Hlen. apply find_command_overrun. split; [exact Hbare |].
    apply new_path_overruns_iff. exists home. auto.
  - repeat split.
Qed.

Lemma find_command_first_directory_witness :
  find_command demo_kernel "/home/u" "/bin/ls" = Found "/bin/ls" /\
  find_command root_kernel "/" "ls" = Found (full_path "ls" "/usr/bin") /\
  find_command root_kernel "/" "ls"
  = match search_path root_kernel "/" (search_list root_kernel "/") "ls" with
    | Some p => Found p
    | None => NotFound
    end /\
  find_command demo_kernel "/home/u" "ls" = Overrun.
Proof.
  destruct (find_command_first_directory demo_kernel "/home/u" "/bin/ls") as [H1 _].
  destruct (find_command_first_directory root_kernel "/" "ls") as (_ & H2 & H3 & _).
  destruct (find_command_first_directory demo_kernel "/home/u" "ls") as (_ & _ & _ & _ & H5 & _).
  split; [| split; [| split]].
  - apply H1. reflexivity.
  - apply (H2 "/" [] ["/bin"; "/bin"; "/sbin"; "/usr/bin"; "/usr/sbin"; "/usr/local/bin";
                      "//.local/bin"] "/usr/bin" "/bin");
      [reflexivity | reflexivity | apply le_n | reflexivity | intros d []
       | reflexivity | simpl; tauto | reflexivity].
  - apply (H3 "/"); [reflexivity | reflexivity | apply le_n | reflexivity].
  - apply (H5 "/home/u"); [reflexivity | reflexivity | vm_compute; lia].
Defined.

(** ** C3: background jobs *)

Local Open Scope Z_scope.

(** C3, as the claim has it, fails.  The line ["sleep 5 &"] starts [sleep]
    and adds no job to the table.  [add_job], with [MAX_ARGS] jobs in the
    table, records nothing.  And of two running jobs with the same process
    id, only the first is marked as finished by the sweep that follows the
    end of the process. *)
Lemma background_launch_adds_no_job :
  option_map (fun r => (job_count (config (snd r)), trace (snd r)))
             (execute_command root_kernel "sleep 5 &" root_shell)
  = Some (0%nat, [Execv "/bin/sleep" ["sleep"; "5"; "&"]]) /\
  (let sh := register_jobs MAX_ARGS demo_shell in
   job_count (config sh) = 512%nat /\
   job_count (config (add_job 513 "sleep 1" sh)) = 512%nat /\
   jobs (config (add_job 513 "sleep 1" sh)) = jobs (config sh) /\
   trace (add_job 513 "sleep 1" sh)
   = trace sh ++ [PrintError "Maximum number of background jobs reached"]) /\
  jobs (config (update_jobs (set_procs demo_procs
                               (add_job 42 "two" (add_job 42 "one" demo_shell)))))
  = [mkJob 42 "one" 3 false; mkJob 42 "two" 0 true].
Proof.
  split; [reflexivity |]. split; [| reflexivity].
  cbv zeta.
  split; [vm_compute; reflexivity |].
  split; [vm_compute; reflexivity |].
  split; [vm_compute; reflexivity |].
  vm_compute; reflexivity.
Qed.

(** C3, amended: no line launches a background job: [execute_command]
    leaves the job table as it is.  [add_job], which records a job, appends
    exactly one job, running, and writes nothing while the table holds
    fewer than [MAX_ARGS = 512] jobs; with 512 jobs in the table it writes
    a diagnostic and leaves the table as it is.  For a recorded running
    job, anywhere in the table, whose process id is that of a child (a
    positive number: [waitpid] reads any other as a set of children) and
    is not the id of a running job before it (the sweep of the earlier job
    would reap the process): once its process has exited with some code,
    one sweep of [update_jobs] marks the job as finished with that code
    and writes its completion line.  The sweep leaves the entry of a
    process that is still running as it is, leaves finished entries as
    they are, and keeps the number, the process ids and the command texts
    of all entries. *)
Theorem background_job_lifecycle :
  (forall (K : Kernel) (command : string) (sh : Shell),
      match execute_command K command sh with
      | Some r => jobs (config (snd r)) = jobs (config sh)
      | None => new_path_overruns K = true
      end) /\
  (forall (sh : Shell) (p : Z) (cmd : string),
      (job_count (config sh) < MAX_ARGS)%nat ->
      jobs (config (add_job p cmd sh)) = jobs (config sh) ++ [mkJob p cmd 0 true] /\
      job_count (config (add_job p cmd sh)) = S (job_count (config sh)) /\
      trace (add_job p cmd sh) = trace sh) /\
  (forall (sh : Shell) (p : Z) (cmd : string),
      (MAX_ARGS <= job_count (config sh))%nat ->
      jobs (config (add_job p cmd sh)) = jobs (config sh) /\
      trace (add_job p cmd sh)
      = trace sh ++ [PrintError "Maximum number of background jobs reached"]) /\
  (forall (sh : Shell) (js js' : list Job) (j : Job) (code : Z),
      jobs (config sh) = js ++ j :: js' ->
      running j = true ->
      0 < pid j ->
      0 <= code < 256 ->
      (forall j0, In j0 js -> running j0 = true -> 0 < pid j0 /\ pid j0 <> pid j) ->
      procs sh (pid j) = PZombie (W_EXITCODE code) ->
      nth_error (jobs (config (update_jobs sh))) (length js)
      = Some (mkJob (pid j) (command j) code false) /\
      In (Printf (job_done_line (length js) (mkJob (pid j) (command j) code false)))
         (trace (update_jobs sh))) /\
  (forall (sh : Shell) (js js' : list Job) (j : Job),
      jobs (config sh) = js ++ j :: js' ->
      procs sh (pid j) = PRunning ->
      nth_error (jobs (config (update_jobs sh))) (length js) = Some j) /\
  (forall sh : Shell,
      job_count (config (update_jobs sh)) = job_count (config sh) /\
      map pid (jobs (config (update_jobs sh))) = map pid (jobs (config sh)) /\
      map command (jobs (config (update_jobs sh))) = map command (jobs (config sh))) /\
  (forall (sh : Shell) (n : nat) (j : Job),
      nth_error (jobs (config sh)) n = Some j ->
      running j = false ->
      nth_error (jobs (config (update_jobs sh))) n = Some j).
Proof.
  split; [| split; [| split; [| split; [| split; [| split]]]]].
  - intros K command sh. apply result_or_overrun.
    + apply execute_command_none.
    + apply jobs_execute_command.
  - intros sh p cmd Hroom. rewrite (add_job_room p cmd sh Hroom).
    split; [reflexivity |]. split; [| reflexivity].
    unfold job_count. cbn [set_jobs set_config config jobs].
    rewrite length_app. simpl. lia.
  - intros sh p cmd Hfull. rewrite (add_job_full p cmd sh Hfull). split; reflexivity.
  - intros sh js js' j code Hjobs Hrun Hp Hcode Hpids Hps.
    assert (Huniq : forall j0, In j0 js -> running j0 = true -> pid j0 <> pid j)
      by (intros j0 Hj Hr; now apply Hpids).
    rewrite jobs_update_jobs, trace_update_jobs, Hjobs.
    pose proof (update_jobs_from_reaps js js' j (procs sh) (W_EXITCODE code) 0
                                       Hrun Hp Hps Huniq) as H.
    pose proof (update_jobs_from_reaps_output js js' j (procs sh) (W_EXITCODE code) 0
                                              Hrun Hp Hps Huniq) as Ho.
    rewrite (WEXITSTATUS_W_EXITCODE code Hcode) in H, Ho.
    split; [exact H |]. apply in_or_app. right. exact Ho.
  - intros sh js js' j Hjobs Hps. rewrite jobs_update_jobs, Hjobs.
    now apply update_jobs_from_waits.
  - intros sh. rewrite jobs_update_jobs. unfold job_count. rewrite jobs_update_jobs.
    split; [apply update_jobs_from_length | apply update_jobs_from_keeps].
  - intros sh n j Hn Hrun. rewrite jobs_update_jobs.
    now apply update_jobs_from_finished.
Qed.

Lemma background_job_lifecycle_witness :
  (jobs (config (add_job 42 "sleep 5" demo_shell))
   = jobs (config demo_shell) ++ [mkJob 42 "sleep 5" 0 true] /\
   job_count (config (add_job 42 "sleep 5" demo_shell)) = S (job_count (config demo_shell)) /\
   trace (add_job 42 "sleep 5" demo_shell) = trace demo_shell) /\
  (jobs (config (add_job 513 "sleep 1" (register_jobs MAX_ARGS demo_shell)))
   = jobs (config (register_jobs MAX_ARGS demo_shell)) /\
   trace (add_job 513 "sleep 1" (register_jobs MAX_ARGS demo_shell))
   = trace (register_jobs MAX_ARGS demo_shell)
     ++ [PrintError "Maximum number of background jobs reached"]) /\
  (let sh := set_procs demo_procs (add_job 42 "sleep 5" (add_job 43 "sleep 9" demo_shell)) in
   (nth_error (jobs (config (update_jobs sh))) (length [mkJob 43 "sleep 9" 0 true])
    = Some (mkJob 42 "sleep 5" 3 false) /\
    In (Printf (job_done_line (length [mkJob 43 "sleep 9" 0 true])
                              (mkJob 42 "sleep 5" 3 false)))
       (trace (update_jobs sh))) /\
   nth_error (jobs (config (update_jobs sh))) (length (@nil Job))
   = Some (mkJob 43 "sleep 9" 0 true) /\
   nth_error (jobs (config (update_jobs (update_jobs sh)))) 1
   = Some (mkJob 42 "sleep 5" 3 false)).
Proof.
  destruct background_job_lifecycle as (_ & Hadd & Hfull & Hreap & Hwait & _ & Hkeep).
  split; [| split; [| split; [| split]]].
  - apply Hadd. vm_compute. lia.
  - apply Hfull. vm_compute. apply le_n.
  - apply (Hreap _ [mkJob 43 "sleep 9" 0 true] [] (mkJob 42 "sleep 5" 0 true) 3).
    + reflexivity.
    + reflexivity.
    + cbn [pid]. lia.
    + lia.
    + intros j0 [<- | []] _. cbn [pid]. lia.
    + reflexivity.
  - apply (Hwait _ [] [mkJob 42 "sleep 5" 0 true] (mkJob 43 "sleep 9" 0 true));
      reflexivity.
  - apply Hkeep; reflexivity.
Defined.

Local Close Scope Z_scope.

(** ** Further properties *)

(** X1: every word that [parse_command] returns is a non-empty string
    without blank, tab, newline or carriage return. *)
Theorem parse_command_words_are_tokens (command w : string) :
  In w (parse_command command) ->
  w <> "" /\ all_chars (fun c => negb (is_blank c)) w = true.
Proof.
  intros Hin.
  pose proof (parse_command_valid command) as Hall.
  rewrite Forall_forall in Hall. specialize (Hall w Hin).
  unfold is_word, is_token in Hall. apply andb_true_iff in Hall.
  destruct Hall as [Hne Hw]. split; [| exact Hw].
  intros ->. discriminate Hne.
Qed.

Lemma parse_command_words_are_tokens_witness :
  "-la" <> "" /\ all_chars (fun c => negb (is_blank c)) "-la" = true.
Proof.
  apply (parse_command_words_are_tokens "  ls   -la  " "-la").
  simpl. tauto.
Defined.

(** X2: joining the words of a line with single spaces and parsing again
    gives the same words: the amount and the kind of blank space between
    words, before and behind them does not matter. *)
Theorem parse_command_normal_form (command : string) :
  parse_command (String.concat " " (parse_command command)) = parse_command command.
Proof.
  apply parse_command_words; [apply parse_command_valid | apply parse_command_length].
Qed.

(** X3: [parse_command] returns no word exactly for the lines made of
    blanks alone; such a line, when it is not empty, is recorded in the
    history and has the status [EXIT_SUCCESS] without anything run. *)
Theorem parse_command_no_words (command : string) :
  (parse_command command = [] <-> all_chars is_blank command = true) /\
  (forall (K : Kernel) (sh : Shell),
      all_chars is_blank command = true ->
      execute_command K command sh = Some (EXIT_SUCCESS, add_to_history command sh)).
Proof.
  assert (Hiff : parse_command command = [] <-> all_chars is_blank command = true).
  { rewrite parse_command_firstn. unfold strtok.
    pose proof (strtok_from_nil is_blank command "") as H.
    destruct (strtok_from is_blank "" command) as [|t toks].
    - split; [intros _; now apply H | reflexivity].
    - change (MAX_ARGS - 1) with (S 510). cbn [firstn].
      split; [discriminate |].
      intros Hb. destruct H as [_ H]. discriminate (H (conj eq_refl Hb)). }
  split; [exact Hiff |].
  intros K sh Hblank. unfold execute_command.
  destruct (String.eqb_spec command "") as [-> | _]; [reflexivity |].
  apply Hiff in Hblank. rewrite Hblank. reflexivity.
Qed.

Lemma parse_command_no_words_witness :
  execute_command demo_kernel "   " demo_shell
  = Some (EXIT_SUCCESS, add_to_history "   " demo_shell).
Proof.
  destruct (parse_command_no_words "   ") as [_ H]. apply H. reflexivity.
Defined.

Lemma skip_space_split (s : string) :
  exists lead, s = (lead ++ skip_space s)%string /\ all_chars isspace lead = true.
Proof.
  induction s as [|c s [lead [Hs Hlead]]]; simpl.
  - exists "". split; reflexivity.
  - destruct (isspace c) eqn:Hc.
    + exists (String c lead). simpl. rewrite Hc, Hlead, <- Hs. split; reflexivity.
    + exists "". split; reflexivity.
Qed.

Lemma skip_space_first (s : string) (c : ascii) :
  first_char (skip_space s) = Some c -> isspace c = false.
Proof.
  induction s as [|a s IH]; simpl; [discriminate |].
  destruct (isspace a) eqn:Ha; [exact IH |].
  simpl. intros H. injection H as <-. exact Ha.
Qed.

Lemma drop_trailing_space_split (r : string) :
  exists trail,
    r = (drop_trailing_space r ++ trail)%string /\ all_chars isspace trail = true.
Proof.
  induction r as [|c r [trail [Hr Htrail]]]; simpl.
  - exists "". split; reflexivity.
  - destruct (drop_trailing_space r) as [|a d].
    + simpl in Hr. subst trail. destruct (isspace c) eqn:Hc.
      * exists (String c r). simpl. rewrite Hc, Htrail. split; reflexivity.
      * exists r. split; [reflexivity | exact Htrail].
    + exists trail. rewrite Hr at 1. split; [reflexivity | exact Htrail].
Qed.

Lemma drop_trailing_space_last (r : string) (c : ascii) :
  last_char (drop_trailing_space r) = Some c -> isspace c = false.
Proof.
  induction r as [|a r IH]; simpl; [discriminate |].
  destruct (drop_trailing_space r) as [|b d].
  - destruct (isspace a) eqn:Ha; simpl; [discriminate |].
    intros H. injection H as <-. exact Ha.
  - exact IH.
Qed.

Lemma drop_trailing_space_idem (r : string) :
  drop_trailing_space (drop_trailing_space r) = drop_trailing_space r.
Proof.
  induction r as [|a r IH]; simpl; [reflexivity |].
  destruct (drop_trailing_space r) as [|b d] eqn:E.
  - destruct (isspace a) eqn:Ha; simpl; [reflexivity | now rewrite Ha].
  - change (drop_trailing_space (String a (String b d)))
      with (match drop_trailing_space (String b d) with
            | "" => if isspace a then "" else String a ""
            | String x y => String a (String x y)
            end).
    now rewrite IH.
Qed.

(** X4: [trim_whitespace] cuts a run of white space off each end and
    nothing else: the result neither starts nor ends with white space,
    trimming twice is trimming once, and the result is empty exactly for
    the lines of white space alone. *)
Theorem trim_whitespace_trims (s : string) :
  (exists lead trail,
      s = (lead ++ trim_whitespace s ++ trail)%string /\
      all_chars isspace lead = true /\ all_chars isspace trail = true) /\
  (forall c, first_char (trim_whitespace s) = Some c -> isspace c = false) /\
  (forall c, last_char (trim_whitespace s) = Some c -> isspace c = false) /\
  trim_whitespace (trim_whitespace s) = trim_whitespace s /\
  (trim_whitespace s = "" <-> all_chars isspace s = true).
Proof.
  unfold trim_whitespace.
  destruct (skip_space_split s) as [lead [Hs Hlead]].
  pose proof (skip_space_first s) as Hfirst.
  destruct (skip_space s) as [|c r] eqn:E.
  - rewrite append_empty_r in Hs. subst lead.
    split; [exists s, ""; rewrite append_empty_r; auto |].
    split; [discriminate |]. split; [discriminate |].
    split; [reflexivity |]. split; [intros _; exact Hlead | reflexivity].
  - specialize (Hfirst c eq_refl).
    destruct (drop_trailing_space_split r) as [trail [Hr Htrail]].
    split; [| split; [| split; [| split]]].
    + exists lead, trail. split; [| split; assumption].
      rewrite Hs at 1. simpl. now rewrite <- Hr.
    + simpl. intros c' H. injection H as <-. exact Hfirst.
    + intros c' H. simpl in H.
      destruct (drop_trailing_space r) as [|b d] eqn:Ed.
      * injection H as <-. exact Hfirst.
      * apply (drop_trailing_space_last r). now rewrite Ed.
    + simpl. rewrite Hfirst. now rewrite drop_trailing_space_idem.
    + split; [discriminate |].
      intros Hall. rewrite (skip_space_blank s Hall) in E. discriminate E.
Qed.

Lemma trim_whitespace_trims_witness :
  isspace "l" = false /\ isspace "a" = false.
Proof.
  destruct (trim_whitespace_trims "  ls -la  ") as [_ [Hfirst [Hlast _]]].
  split; [apply Hfirst | apply Hlast]; reflexivity.
Defined.

(** X5: every line that is not empty is appended to the history exactly
    once, whatever it is and however it ends: builtin, program, unknown
    command or error.  (The only run without a result is the one in which
    the path search writes past the end of [new_path].) *)
Theorem execute_command_records_line (K : Kernel) (command : string) (sh : Shell) :
  command <> "" ->
  match execute_command K command sh with
  | Some r => history (snd r) = history sh ++ [command]
  | None => new_path_overruns K = true
  end.
Proof.
  intros Hne. apply result_or_overrun; [apply execute_command_none |].
  intros r Hr. rewrite (execute_command_dispatch K command sh Hne) in Hr.
  destruct (dispatch_state K _ _ r Hr) as [Hh _].
  rewrite Hh. unfold add_to_history. apply String.eqb_neq in Hne. now rewrite Hne.
Qed.

Lemma execute_command_records_line_witness :
  match execute_command root_kernel "no-such-thing" root_shell with
  | Some r => history (snd r) = history root_shell ++ ["no-such-thing"]
  | None => new_path_overruns root_kernel = true
  end.
Proof. apply execute_command_records_line. discriminate. Defined.

(** X6: the status of [execute_command] is always between 0 and 255. *)
Theorem execute_command_status_range (K : Kernel) (command : string) (sh : Shell) :
  match execute_command K command sh with
  | Some r => (0 <= fst r <= 255)%Z
  | None => new_path_overruns K = true
  end.
Proof.
  apply result_or_overrun; [apply execute_command_none |].
  intros r Hr. destruct (String.eqb_spec command "") as [-> | Hne].
  - injection Hr as <-. cbn. status_lia.
  - rewrite (execute_command_dispatch K command sh Hne) in Hr.
    now apply (dispatch_state K _ _ r Hr).
Qed.

(** X7: what a line can change is decided by the first word of the
    command after alias expansion.  Only [cd] changes the working
    directory and [current_dir], only [exit] changes the [running] flag,
    only [alias] changes the alias table; the children of the shell are
    never touched. *)
Theorem execute_command_frame (K : Kernel) (command : string) (sh : Shell) :
  let first := hd_error (resolve_alias (parse_command command) sh) in
  match execute_command K command sh with
  | Some r =>
      (first <> Some "cd" ->
       cwd (snd r) = cwd sh /\ current_dir (snd r) = current_dir sh) /\
      (first <> Some "exit" -> running_flag (snd r) = running_flag sh) /\
      (first <> Some "alias" -> config (snd r) = config sh) /\
      procs (snd r) = procs sh
  | None => new_path_overruns K = true
  end.
Proof.
  cbv zeta. apply result_or_overrun; [apply execute_command_none |].
  intros r Hr. destruct (String.eqb_spec command "") as [-> | Hne].
  - injection Hr as <-. cbn. repeat split.
  - rewrite (execute_command_dispatch K command sh Hne) in Hr.
    destruct (dispatch_state K _ _ r Hr) as (_ & Hp & _ & Hcd & Hex & Hal & _).
    destruct (add_to_history_state command sh) as (H1 & H2 & H3 & H4 & H5 & _).
    split; [| split; [| split]].
    + intros Hf. destruct (Hcd Hf) as [Ha Hb]. split; congruence.
    + intros Hf. rewrite (Hex Hf). exact H3.
    + intros Hf. rewrite (Hal Hf). exact H4.
    + congruence.
Qed.

Lemma execute_command_frame_witness :
  match execute_command root_kernel "ls -la" root_shell with
  | Some r =>
      (cwd (snd r) = cwd root_shell /\ current_dir (snd r) = current_dir root_shell) /\
      running_flag (snd r) = running_flag root_shell /\
      config (snd r) = config root_shell
  | None => False
  end.
Proof.
  pose proof (execute_command_frame root_kernel "ls -la" root_shell) as H.
  cbv zeta in H.
  destruct (execute_command root_kernel "ls -la" root_shell) as [r|] eqn:E;
    [| discriminate E].
  destruct H as (Hcd & Hex & Hal & _).
  split; [apply Hcd | split; [apply Hex | apply Hal]]; discriminate.
Defined.

(** X8: a builtin name that is not an alias is never looked up on the
    search path.  When the first word of a line is not defined as an alias
    and is one of [cd], [pwd], [exit], [clear], [help], [history],
    [alias], the command is the builtin, run on the words of the line,
    whatever program of that name exists; its status is 0 or 1, and the
    run never reaches the path search. *)
Theorem builtin_shadows_program (K : Kernel) (command a0 : string) (rest : list string)
        (sh : Shell) :
  parse_command command = a0 :: rest ->
  get_alias a0 sh = None ->
  In a0 builtin_names ->
  execute_command K command sh
  = Some (execute_builtin K (a0 :: rest) (add_to_history command sh)) /\
  (fst (execute_builtin K (a0 :: rest) (add_to_history command sh)) = 0
   \/ fst (execute_builtin K (a0 :: rest) (add_to_history command sh)) = 1)%Z.
Proof.
  intros Hparse Halias Hin.
  rewrite (execute_command_dispatch K command sh) by (intros ->; discriminate Hparse).
  rewrite Hparse. unfold resolve_alias. rewrite Halias. unfold dispatch.
  pose proof (execute_builtin_state K (a0 :: rest) (add_to_history command sh)) as H.
  destruct (execute_builtin K (a0 :: rest) (add_to_history command sh)) as [st sh1].
  cbn [fst snd] in H. destruct H as (_ & _ & _ & _ & _ & Hst).
  destruct Hst as [-> | [-> | [_ [_ Hno]]]].
  - cbn. split; [reflexivity | now left].
  - cbn. split; [reflexivity | now right].
  - exfalso. apply (Hno a0 eq_refl Hin).
Qed.

Lemma builtin_shadows_program_witness :
  execute_command demo_kernel "pwd x" demo_shell
  = Some (execute_builtin demo_kernel ["pwd"; "x"] (add_to_history "pwd x" demo_shell)) /\
  (fst (execute_builtin demo_kernel ["pwd"; "x"] (add_to_history "pwd x" demo_shell)) = 0
   \/ fst (execute_builtin demo_kernel ["pwd"; "x"] (add_to_history "pwd x" demo_shell)) = 1)%Z.
Proof.
  apply (builtin_shadows_program demo_kernel "pwd x" "pwd" ["x"]); try reflexivity.
  simpl. tauto.
Defined.

Lemma lookup_alias_none (l : list Alias) (n : string) :
  lookup_alias l n = None <-> ~ In n (map name l).
Proof.
  induction l as [|a l IH]; simpl; [tauto |].
  destruct (String.eqb_spec (name a) n) as [E | E].
  - split; [discriminate | intros H; exfalso; apply H; now left].
  - rewrite IH. tauto.
Qed.

Lemma overwrite_alias_none (l : list Alias) (n v : string) :
  overwrite_alias l n v = None <-> lookup_alias l n = None.
Proof.
  induction l as [|a l IH]; simpl; [tauto |].
  destruct (name a =? n)%string; [split; discriminate |].
  destruct (overwrite_alias l n v); simpl.
  - split; [discriminate |]. intros H. apply IH in H. discriminate H.
  - split; [intros _; now apply IH | reflexivity].
Qed.



Lemma aliases_add_alias (n v : string) (sh : Shell) :
  aliases (config (add_alias n v sh))
  = if (MAX_ALIASES <=? alias_count (config sh))%nat then aliases (config sh)
    else match overwrite_alias (aliases (config sh)) n v with
         | Some l' => l'
         | None => aliases (config sh) ++ [mkAlias n v]
         end.
Proof. unfold add_alias. destruct_matches; reflexivity. Qed.

Lemma config_add_alias_ext (n v : string) (sh1 sh2 : Shell) :
  config sh1 = config sh2 -> config (add_alias n v sh1) = config (add_alias n v sh2).
Proof.
  intros H. unfold add_alias. rewrite H. destruct_matches; simpl; now rewrite H.
Qed.

Lemma drop_alias_absent (l : list Alias) (n : string) :
  lookup_alias l n = None -> drop_alias l n = l.
Proof.
  induction l as [|a l IH]; simpl; [reflexivity |].
  destruct (name a =? n)%string; [discriminate |]. intros H. now rewrite IH.
Qed.

Lemma drop_alias_names (l : list Alias) (n : string) :
  forall m, In m (map name (drop_alias l n)) -> In m (map name l).
Proof.
  induction l as [|a l IH]; simpl; [tauto |].
  destruct (name a =? n)%string; simpl; [tauto |].
  intros m [H | H]; [now left | right; now apply IH].
Qed.

Lemma drop_alias_nodup (l : list Alias) (n : string) :
  NoDup (map name l) -> NoDup (map name (drop_alias l n)).
Proof.
  induction l as [|a l IH]; simpl; intros H; [constructor |].
  inversion H as [|x xs Hx Hxs]; subst.
  destruct (name a =? n)%string; [exact Hxs |].
  simpl. constructor; [| now apply IH].
  intros Hin. apply Hx. now apply (drop_alias_names l n).
Qed.

Lemma drop_alias_length (l : list Alias) (n : string) :
  length (drop_alias l n) <= length l.
Proof.
  induction l as [|a l IH]; simpl; [lia |].
  destruct (name a =? n)%string; simpl; lia.
Qed.

(** The alias table after [dispatch]: as before, or as [add_alias] leaves
    it for the name and value cut out of [args[1]]. *)
Lemma dispatch_config (K : Kernel) (args : list string) (sh : Shell) (r : Z * Shell) :
  dispatch K args sh = Some r ->
  config (snd r) = config sh \/
  exists a1 n v,
    arg_at args 1 = Some a1 /\ split_at "=" a1 = Some (n, v) /\
    config (snd r) = config (add_alias n v sh).
Proof.
  intros Hr.
  destruct args as [|a0 rest].
  { left. apply (dispatch_state K [] sh r Hr). discriminate. }
  destruct (String.eqb_spec a0 "alias") as [-> | Hne].
  2: { left. apply (dispatch_state K (a0 :: rest) sh r Hr). simpl. congruence. }
  unfold dispatch in Hr.
  change (execute_builtin K ("alias" :: rest) sh) with (cmd_alias ("alias" :: rest) sh) in Hr.
  unfold cmd_alias in Hr.
  destruct (arg_at ("alias" :: rest) 1) as [a1|]; [| injection Hr as <-; left; reflexivity].
  destruct (split_at "=" a1) as [[n v]|] eqn:E; [| injection Hr as <-; left; reflexivity].
  injection Hr as <-. right. exists a1, n, v. repeat split. exact E.
Qed.

Lemma execute_command_config (K : Kernel) (command : string) (sh : Shell) (r : Z * Shell) :
  execute_command K command sh = Some r ->
  config (snd r) = config sh \/
  exists a1 n v,
    In a1 (resolve_alias (parse_command command) sh) /\
    split_at "=" a1 = Some (n, v) /\
    config (snd r) = config (add_alias n v sh).
Proof.
  destruct (String.eqb_spec command "") as [-> | Hne].
  { intros Hr. injection Hr as <-. left. reflexivity. }
  rewrite (execute_command_dispatch K command sh Hne). intros Hr.
  destruct (add_to_history_state command sh) as (_ & _ & _ & Hc & _).
  destruct (dispatch_config K _ _ r Hr) as [H | (a1 & n & v & Harg & Hsplit & H)].
  - left. congruence.
  - right. exists a1, n, v. split; [| split; [exact Hsplit |]].
    + unfold arg_at in Harg. now apply nth_error_In in Harg.
    + rewrite H. now apply config_add_alias_ext.
Qed.

Lemma add_alias_table_ok (n v : string) (sh : Shell) :
  alias_table_ok sh -> alias_table_ok (add_alias n v sh).
Proof.
  unfold alias_table_ok, alias_count. intros [Hnd Hlen].
  rewrite aliases_add_alias. unfold alias_count.
  destruct (Nat.leb_spec MAX_ALIASES (length (aliases (config sh)))) as [Hfull | Hroom];
    [split; assumption |].
  destruct (overwrite_alias (aliases (config sh)) n v) as [l'|] eqn:E.
  - destruct (overwrite_alias_length _ _ _ _ E) as [Hl Hn]. rewrite Hn, Hl. now split.
  - apply overwrite_alias_none, lookup_alias_none in E.
    rewrite map_app, length_app. simpl. split; [| lia].
    apply NoDup_app; [exact Hnd | repeat constructor; intros [] |].
    intros x Hx [<- | []]. now apply E.
Qed.

Lemma execute_command_table_ok (K : Kernel) (command : string) (sh : Shell) (r : Z * Shell) :
  alias_table_ok sh ->
  execute_command K command sh = Some r ->
  alias_table_ok (snd r).
Proof.
  intros Hok Hr. unfold alias_table_ok, alias_count.
  destruct (execute_command_config K command sh r Hr) as [H | (a1 & n & v & _ & _ & H)];
    rewrite H; [exact Hok | exact (add_alias_table_ok n v sh Hok)].
Qed.

(** X9: the alias table never holds a name twice and never more than
    [MAX_ALIASES] entries: this holds after [initialize_shell] and is kept
    by [add_alias], by [remove_alias], by every command and by the whole
    loop of [main]. *)
Theorem alias_table_invariant (K : Kernel) :
  (forall wd hist, alias_table_ok (initial_shell wd hist)) /\
  (forall sh,
      alias_table_ok sh ->
      (forall n v, alias_table_ok (add_alias n v sh)) /\
      (forall n, alias_table_ok (remove_alias n sh)) /\
      (forall command,
          match execute_command K command sh with
          | Some r => alias_table_ok (snd r)
          | None => new_path_overruns K = true
          end) /\
      (forall lines,
          match main_loop K lines sh with
          | Some sh' => alias_table_ok sh'
          | None => new_path_overruns K = true
          end)).
Proof.
  split.
  - intros wd hist. split; [apply NoDup_nil | unfold alias_count, MAX_ALIASES; simpl; lia].
  - intros sh Hok. split; [| split; [| split]].
    + intros n v. now apply add_alias_table_ok.
    + intros n. destruct Hok as [Hnd Hlen]. split.
      * simpl. now apply drop_alias_nodup.
      * unfold alias_count in *. simpl.
        pose proof (drop_alias_length (aliases (config sh)) n). lia.
    + intros command. apply result_or_overrun; [apply execute_command_none |].
      intros r. now apply execute_command_table_ok.
    + intros lines. apply result_or_overrun; [apply main_loop_none |].
      intros sh'. apply (main_loop_invariant K alias_table_ok); [| | exact Hok].
      * intros sh0 command r H0 Hr. exact (execute_command_table_ok K command sh0 r H0 Hr).
      * intros sh0 [Hnd Hlen]. unfold alias_table_ok, alias_count.
        rewrite aliases_update_jobs. now split.
Qed.

Lemma alias_table_invariant_witness :
  match main_loop demo_kernel ["alias a=b"; "alias a=c"; "pwd"] (initial_shell "/home/u" [])
  with
  | Some sh' => alias_table_ok sh'
  | None => new_path_overruns demo_kernel = true
  end.
Proof.
  destruct (alias_table_invariant demo_kernel) as [Hinit Hstep].
  apply (Hstep (initial_shell "/home/u" []) (Hinit "/home/u" [])).
Defined.



Lemma lookup_drop_same (l : list Alias) (n : string) :
  NoDup (map name l) -> lookup_alias (drop_alias l n) n = None.
Proof.
  induction l as [|a l IH]; simpl; intros H; [reflexivity |].
  inversion H as [|x xs Hx Hxs]; subst.
  destruct (String.eqb_spec (name a) n) as [E | E].
  - subst n. now apply lookup_alias_none.
  - simpl. destruct (String.eqb_spec (name a) n); [contradiction | now apply IH].
Qed.

Lemma lookup_drop_other (l : list Alias) (n m : string) :
  m <> n -> lookup_alias (drop_alias l n) m = lookup_alias l m.
Proof.
  intros Hm. induction l as [|a l IH]; simpl; [reflexivity |].
  destruct (String.eqb_spec (name a) n) as [E | E].
  - destruct (String.eqb_spec (name a) m); [congruence | reflexivity].
  - simpl. now rewrite IH.
Qed.

Lemma drop_alias_present (l : list Alias) (n v : string) :
  lookup_alias l n = Some v -> S (length (drop_alias l n)) = length l.
Proof.
  induction l as [|a l IH]; simpl; [discriminate |].
  destruct (name a =? n)%string; [reflexivity |].
  intros H. simpl. now rewrite IH.
Qed.

Lemma drop_alias_app_absent (l : list Alias) (n v : string) :
  lookup_alias l n = None -> drop_alias (l ++ [mkAlias n v]) n = l.
Proof.
  induction l as [|a l IH]; simpl.
  - now rewrite String.eqb_refl.
  - destruct (name a =? n)%string; [discriminate |]. intros H. now rewrite IH.
Qed.

(** X11: [remove_alias].  Removing a name that is not defined changes
    nothing.  Removing a defined name takes one entry away; in a table
    without a name twice the name is then undefined; the other names keep
    their values.  Defining a new name and removing it again gives back
    the table as it was. *)
Theorem remove_alias_removes (n : string) (sh : Shell) :
  (get_alias n sh = None -> remove_alias n sh = sh) /\
  (forall v, get_alias n sh = Some v ->
             S (alias_count (config (remove_alias n sh))) = alias_count (config sh)) /\
  (alias_table_ok sh -> get_alias n (remove_alias n sh) = None) /\
  (forall m, m <> n -> get_alias m (remove_alias n sh) = get_alias m sh) /\
  (forall v, get_alias n sh = None ->
             alias_count (config sh) < MAX_ALIASES ->
             aliases (config (remove_alias n (add_alias n v sh))) = aliases (config sh)).
Proof.
  unfold get_alias, alias_count. split; [| split; [| split; [| split]]].
  - intros H. unfold remove_alias. rewrite (drop_alias_absent _ _ H).
    destruct sh as [d r [al js] h t w ps]. reflexivity.
  - intros v H. simpl. exact (drop_alias_present _ _ _ H).
  - intros [Hnd _]. simpl. now apply lookup_drop_same.
  - intros m Hm. simpl. now apply lookup_drop_other.
  - intros v Hnone Hroom. cbn [remove_alias set_aliases set_config config aliases].
    rewrite aliases_add_alias. unfold alias_count.
    destruct (Nat.leb_spec MAX_ALIASES (length (aliases (config sh)))); [lia |].
    pose proof Hnone as Hov. apply (overwrite_alias_none _ n v) in Hov. rewrite Hov.
    now apply drop_alias_app_absent.
Qed.

Lemma remove_alias_removes_witness :
  get_alias "ll" (remove_alias "ll" (add_alias "ll" "ls" demo_shell)) = None /\
  aliases (config (remove_alias "ll" (add_alias "ll" "ls" demo_shell)))
  = aliases (config demo_shell).
Proof.
  split.
  - destruct (remove_alias_removes "ll" (add_alias "ll" "ls" demo_shell))
      as (_ & _ & H & _).
    apply H. split; [repeat constructor; intros [] | vm_compute; lia].
  - destruct (remove_alias_removes "ll" demo_shell) as (_ & _ & _ & _ & H).
    apply H; [reflexivity | vm_compute; lia].
Defined.

Lemma split_at_append (c : ascii) (n v : string) :
  has_char c n = false -> split_at c (n ++ String c v) = Some (n, v).
Proof.
  induction n as [|a n IH]; simpl.
  - now rewrite Ascii.eqb_refl.
  - intros H. apply orb_false_iff in H. destruct H as [Ha Hn].
    rewrite Ha, (IH Hn). reflexivity.
Qed.

Lemma split_at_all_chars (p : ascii -> bool) (c : ascii) (s n v : string) :
  split_at c s = Some (n, v) ->
  all_chars p s = true ->
  all_chars p n = true /\ all_chars p v = true.
Proof.
  revert n. induction s as [|a s IH]; intros n H Hs; simpl in H; [discriminate |].
  simpl in Hs. apply andb_true_iff in Hs. destruct Hs as [Ha Hs].
  destruct (a =? c)%char.
  - injection H as <- <-. split; [reflexivity | exact Hs].
  - destruct (split_at c s) as [[x y]|]; [| discriminate].
    injection H as <- <-. destruct (IH x eq_refl Hs) as [Hx Hy].
    split; [simpl; now rewrite Ha | exact Hy].
Qed.

(** X12: the line [alias name=value], where [name] holds no [=] and
    neither part holds a blank, defines the alias: the status is
    [EXIT_SUCCESS] and a lookup of [name] then gives [value] (as long as
    [alias] is not itself an alias and the table has room). *)
Theorem alias_line_defines (K : Kernel) (n v : string) (sh : Shell) :
  has_char "=" n = false ->
  no_blank n = true ->
  no_blank v = true ->
  get_alias "alias" sh = None ->
  alias_count (config sh) < MAX_ALIASES ->
  exists r,
    execute_command K ("alias " ++ n ++ "=" ++ v) sh = Some r /\
    fst r = EXIT_SUCCESS /\ get_alias n (snd r) = Some v.
Proof.
  intros Heq Hn Hv Hnot Hroom.
  assert (Hparse : parse_command ("alias " ++ n ++ "=" ++ v) = ["alias"; (n ++ "=" ++ v)%string]).
  { apply (parse_command_words ["alias"; (n ++ "=" ++ v)%string]).
    - constructor; [reflexivity |]. constructor; [| constructor].
      unfold is_word, is_token. apply andb_true_iff. split.
      + destruct n; reflexivity.
      + unfold no_blank in *. rewrite all_chars_append, Hn. simpl. exact Hv.
    - unfold MAX_ARGS. simpl. lia. }
  rewrite (execute_command_dispatch K _ sh) by (destruct n; discriminate).
  rewrite Hparse. unfold resolve_alias. rewrite Hnot.
  unfold dispatch.
  change (execute_builtin K ["alias"; (n ++ "=" ++ v)%string] (add_to_history _ sh))
    with (cmd_alias ["alias"; (n ++ "=" ++ v)%string]
                    (add_to_history ("alias " ++ n ++ "=" ++ v) sh)).
  unfold cmd_alias. cbn [arg_at nth_error].
  change (n ++ "=" ++ v)%string with (n ++ String "=" v)%string.
  rewrite (split_at_append "=" n v Heq). cbn [fst snd EXIT_SUCCESS EXIT_NOT_FOUND Z.eqb].
  eexists. split; [reflexivity |]. split; [reflexivity |].
  apply get_alias_add_alias.
  unfold add_to_history. destruct (_ =? "")%string; exact Hroom.
Qed.

Lemma alias_line_defines_witness :
  exists r,
    execute_command demo_kernel ("alias " ++ "ll" ++ "=" ++ "ls") demo_shell = Some r /\
    fst r = EXIT_SUCCESS /\ get_alias "ll" (snd r) = Some "ls".
Proof.
  apply alias_line_defines; try reflexivity. vm_compute. lia.
Defined.

Lemma overwrite_alias_values (P : string -> Prop) (l l' : list Alias) (n v : string) :
  overwrite_alias l n v = Some l' ->
  P v ->
  Forall (fun a => P (value a)) l ->
  Forall (fun a => P (value a)) l'.
Proof.
  revert l'. induction l as [|a l IH]; intros l' H Hv Hl; simpl in H; [discriminate |].
  inversion Hl as [|x xs Hx Hxs]; subst.
  destruct (name a =? n)%string.
  - injection H as <-. constructor; [exact Hv | exact Hxs].
  - destruct (overwrite_alias l n v) as [r|]; [| discriminate].
    injection H as <-. constructor; [exact Hx | now apply IH].
Qed.

Lemma add_alias_values (P : string -> Prop) (n v : string) (sh : Shell) :
  P v ->
  Forall (fun a => P (value a)) (aliases (config sh)) ->
  Forall (fun a => P (value a)) (aliases (config (add_alias n v sh))).
Proof.
  intros Hv Hl. rewrite aliases_add_alias.
  destruct (MAX_ALIASES <=? alias_count (config sh))%nat; [exact Hl |].
  destruct (overwrite_alias (aliases (config sh)) n v) as [l'|] eqn:E.
  - exact (overwrite_alias_values P _ _ _ _ E Hv Hl).
  - apply Forall_app. split; [exact Hl | repeat constructor; exact Hv].
Qed.

Lemma lookup_alias_value (l : list Alias) (n v : string) :
  lookup_alias l n = Some v -> exists a, In a l /\ value a = v.
Proof.
  induction l as [|a l IH]; simpl; [discriminate |].
  destruct (name a =? n)%string.
  - intros H. injection H as <-. exists a. auto.
  - intros H. destruct (IH H) as [b [Hb Hv]]. exists b. auto.
Qed.

Lemma resolve_alias_valid (command : string) (sh : Shell) :
  Forall is_word (resolve_alias (parse_command command) sh).
Proof.
  unfold resolve_alias. destruct (parse_command command) as [|a0 rest] eqn:E.
  - constructor.
  - destruct (get_alias a0 sh); [apply parse_command_valid |].
    rewrite <- E. apply parse_command_valid.
Qed.

Lemma execute_command_values_plain (K : Kernel) (command : string) (sh : Shell)
      (r : Z * Shell) :
  alias_values_plain sh ->
  execute_command K command sh = Some r ->
  alias_values_plain (snd r).
Proof.
  unfold alias_values_plain. intros Hplain Hr.
  destruct (execute_command_config K command sh r Hr)
    as [H | (a1 & n & v & Hin & Hsplit & H)];
    rewrite H; [exact Hplain |].
  apply (add_alias_values (fun s => no_blank s = true)); [| exact Hplain].
  pose proof (resolve_alias_valid command sh) as Hvalid.
  rewrite Forall_forall in Hvalid. specialize (Hvalid a1 Hin).
  unfold is_word, is_token in Hvalid. apply andb_true_iff in Hvalid.
  destruct Hvalid as [_ Ha1].
  exact (proj2 (split_at_all_chars _ "=" a1 n v Hsplit Ha1)).
Qed.

Lemma no_blank_one_word (v : string) :
  no_blank v = true -> length (parse_command v) <= 1.
Proof.
  intros Hv. rewrite parse_command_firstn.
  destruct v as [|c v]; [simpl; lia |].
  rewrite (strtok_token is_blank (String c v)).
  - change (MAX_ARGS - 1) with (S 510). simpl. lia.
  - unfold is_token. unfold no_blank in Hv. now rewrite Hv.
Qed.

(** X13: no command puts a blank into an alias value.  In a session that
    starts with [initialize_shell], whatever the lines, every alias value
    is at most one word: an alias defined at the prompt cannot carry
    arguments. *)
Theorem alias_values_are_single_words (K : Kernel) :
  (forall sh command,
      alias_values_plain sh ->
      match execute_command K command sh with
      | Some r => alias_values_plain (snd r)
      | None => new_path_overruns K = true
      end) /\
  (forall (wd : string) (hist lines : list string),
      match main_loop K lines (initial_shell wd hist) with
      | Some sh' =>
          forall n v,
            get_alias n sh' = Some v ->
            no_blank v = true /\ length (parse_command v) <= 1
      | None => new_path_overruns K = true
      end).
Proof.
  split.
  - intros sh command Hplain. apply result_or_overrun; [apply execute_command_none |].
    intros r. now apply execute_command_values_plain.
  - intros wd hist lines. apply result_or_overrun; [apply main_loop_none |].
    intros sh' Hloop n v Hget.
    assert (Hplain : alias_values_plain sh').
    { refine (main_loop_invariant K alias_values_plain _ _ lines _ sh' _ Hloop).
      - intros sh command r H0 Hr. exact (execute_command_values_plain K command sh r H0 Hr).
      - intros sh H0. unfold alias_values_plain. now rewrite aliases_update_jobs.
      - constructor. }
    destruct (lookup_alias_value _ _ _ Hget) as [a [Ha Hv]].
    unfold alias_values_plain in Hplain. rewrite Forall_forall in Hplain.
    specialize (Hplain a Ha). rewrite Hv in Hplain.
    split; [exact Hplain | now apply no_blank_one_word].
Qed.

Lemma alias_values_are_single_words_witness :
  match main_loop demo_kernel ["alias ll=ls -la"] (initial_shell "/home/u" []) with
  | Some sh' =>
      get_alias "ll" sh' = Some "ls" /\
      no_blank "ls" = true /\ length (parse_command "ls") <= 1
  | None => False
  end.
Proof.
  destruct (alias_values_are_single_words demo_kernel) as [_ H].
  specialize (H "/home/u" [] ["alias ll=ls -la"]).
  destruct (main_loop demo_kernel ["alias ll=ls -la"] (initial_shell "/home/u" []))
    as [sh'|] eqn:E; [| discriminate E].
  assert (Hget : get_alias "ll" sh' = Some "ls").
  { vm_compute in E. injection E as <-. reflexivity. }
  split; [exact Hget | exact (H "ll" "ls" Hget)].
Defined.

(** X14: the errors of the [alias] builtin.  An argument without [=] is
    refused with a diagnostic and [EXIT_FAILURE], and the table stays as
    it is.  When the table is full, the definition is refused with the
    diagnostic of [add_alias], but the status is [EXIT_SUCCESS]. *)
Theorem cmd_alias_errors (a0 a1 : string) (rest : list string) (sh : Shell) :
  (has_char "=" a1 = false ->
   cmd_alias (a0 :: a1 :: rest) sh
   = (EXIT_FAILURE, print_error "alias: invalid format. Use: alias name=value" sh)) /\
  (has_char "=" a1 = true ->
   MAX_ALIASES <= alias_count (config sh) ->
   cmd_alias (a0 :: a1 :: rest) sh
   = (EXIT_SUCCESS, print_error "Maximum number of aliases reached" sh)).
Proof.
  assert (Hsplit : split_at "=" a1 = None <-> has_char "=" a1 = false).
  { induction a1 as [|c s IH]; simpl; [tauto |].
    destruct (c =? "=")%char; simpl; [split; discriminate |].
    destruct (split_at "=" s); simpl.
    - split; [discriminate |]. intros H. apply IH in H. discriminate H.
    - split; [intros _; now apply IH | reflexivity]. }
  unfold cmd_alias. cbn [arg_at nth_error]. split.
  - intros H. apply Hsplit in H. now rewrite H.
  - intros H Hfull. destruct (split_at "=" a1) as [[n v]|] eqn:E.
    + now rewrite (add_alias_full n v sh Hfull).
    + destruct Hsplit as [Hs _]. specialize (Hs eq_refl). congruence.
Qed.

Lemma cmd_alias_errors_witness :
  cmd_alias ["alias"; "ll"] demo_shell
  = (EXIT_FAILURE, print_error "alias: invalid format. Use: alias name=value" demo_shell) /\
  cmd_alias ["alias"; "x=y"] (define_aliases MAX_ALIASES demo_shell)
  = (EXIT_SUCCESS,
     print_error "Maximum number of aliases reached" (define_aliases MAX_ALIASES demo_shell)).
Proof.
  split.
  - destruct (cmd_alias_errors "alias" "ll" [] demo_shell) as [H _]. apply H. reflexivity.
  - destruct (cmd_alias_errors "alias" "x=y" [] (define_aliases MAX_ALIASES demo_shell))
      as [_ H].
    apply H; [reflexivity | vm_compute; apply le_n].
Defined.

Lemma cmd_cd_sync (K : Kernel) (args : list string) (sh : Shell) :
  (forall d buf, sys_getcwd K d buf = GetcwdOk) ->
  current_dir sh = cwd sh ->
  current_dir (snd (cmd_cd K args sh)) = cwd (snd (cmd_cd K args sh)).
Proof.
  intros Hget Hsync. rewrite cmd_cd_target.
  destruct (cd_target K args) as [target|]; [| exact Hsync].
  unfold cd_chdir, cd_getcwd.
  destruct (sys_chdir K (cwd sh) target) as [d | err]; [| exact Hsync].
  cbn [cwd set_cwd current_dir]. now rewrite Hget.
Qed.

Lemma dispatch_sync (K : Kernel) (args : list string) (sh : Shell) (r : Z * Shell) :
  (forall d buf, sys_getcwd K d buf = GetcwdOk) ->
  current_dir sh = cwd sh ->
  dispatch K args sh = Some r ->
  current_dir (snd r) = cwd (snd r).
Proof.
  intros Hget Hsync Hr.
  destruct args as [|a0 rest].
  { destruct (dispatch_state K [] sh r Hr) as (_ & _ & _ & Hcd & _).
    destruct Hcd as [H1 H2]; [discriminate | congruence]. }
  destruct (String.eqb_spec a0 "cd") as [-> | Hne].
  - unfold dispatch in Hr.
    change (execute_builtin K ("cd" :: rest) sh) with (cmd_cd K ("cd" :: rest) sh) in Hr.
    pose proof (cmd_cd_sync K ("cd" :: rest) sh Hget Hsync) as H.
    pose proof (execute_builtin_state K ("cd" :: rest) sh) as Hst.
    change (execute_builtin K ("cd" :: rest) sh) with (cmd_cd K ("cd" :: rest) sh) in Hst.
    destruct (cmd_cd K ("cd" :: rest) sh) as [st sh1]. cbn [fst snd] in *.
    destruct Hst as (_ & _ & _ & _ & _ & [-> | [-> | [_ [_ Hno]]]]).
    + injection Hr as <-. exact H.
    + injection Hr as <-. exact H.
    + exfalso. apply (Hno "cd" eq_refl). simpl. tauto.
  - destruct (dispatch_state K (a0 :: rest) sh r Hr) as (_ & _ & _ & Hcd & _).
    destruct Hcd as [H1 H2]; [simpl; congruence | congruence].
Qed.

(** X15: as long as [getcwd] succeeds, [current_dir] is the working
    directory of the process after every command and at the end of every
    session: what [pwd] prints is where programs are started. *)
Theorem current_dir_follows_cwd (K : Kernel) :
  (forall d buf, sys_getcwd K d buf = GetcwdOk) ->
  (forall sh command,
      current_dir sh = cwd sh ->
      match execute_command K command sh with
      | Some r => current_dir (snd r) = cwd (snd r)
      | None => new_path_overruns K = true
      end) /\
  (forall wd hist lines,
      match main_loop K lines (initial_shell wd hist) with
      | Some sh' => current_dir sh' = cwd sh'
      | None => new_path_overruns K = true
      end).
Proof.
  intros Hget.
  assert (Hstep : forall sh command r,
             current_dir sh = cwd sh ->
             execute_command K command sh = Some r ->
             current_dir (snd r) = cwd (snd r)).
  { intros sh command r Hsync.
    destruct (String.eqb_spec command "") as [-> | Hne].
    - intros Hr. injection Hr as <-. exact Hsync.
    - rewrite (execute_command_dispatch K command sh Hne).
      apply dispatch_sync; [exact Hget |].
      destruct (add_to_history_state command sh) as (H1 & H2 & _). congruence. }
  split.
  - intros sh command Hsync. apply result_or_overrun; [apply execute_command_none |].
    intros r. now apply Hstep.
  - intros wd hist lines. apply result_or_overrun; [apply main_loop_none |].
    intros sh'. apply (main_loop_invariant K (fun sh => current_dir sh = cwd sh)).
    + exact Hstep.
    + intros sh H. destruct (update_jobs_state sh) as (H1 & H2 & _). congruence.
    + reflexivity.
Qed.

Lemma current_dir_follows_cwd_witness :
  match main_loop demo_kernel ["cd /tmp"; "pwd"; "cd"] (initial_shell "/" []) with
  | Some sh' => current_dir sh' = cwd sh'
  | None => new_path_overruns demo_kernel = true
  end.
Proof.
  destruct (current_dir_follows_cwd demo_kernel) as [_ H]; [reflexivity | apply H].
Defined.

(** X16: when [chdir] succeeds and [getcwd] then fails, [cmd_cd] writes
    the error of [getcwd] and returns [EXIT_FAILURE] although the process
    has changed directory.  [current_dir], the buffer given to [getcwd],
    then holds what [getcwd] left in it, which need be neither the old nor
    the new directory, and that is what [pwd] prints. *)
Theorem cmd_cd_getcwd_failure (K : Kernel) (args : list string) (sh : Shell)
        (target d err contents : string) :
  cd_target K args = Some target ->
  sys_chdir K (cwd sh) target = inl d ->
  sys_getcwd K d (current_dir sh) = GetcwdError err contents ->
  fst (cmd_cd K args sh) = EXIT_FAILURE /\
  cwd (snd (cmd_cd K args sh)) = d /\
  current_dir (snd (cmd_cd K args sh)) = contents /\
  trace (snd (cmd_cd K args sh)) = trace sh ++ [PrintError ("getcwd: " ++ err)] /\
  trace (snd (cmd_pwd [] (snd (cmd_cd K args sh))))
  = trace sh ++ [PrintError ("getcwd: " ++ err); Printf (contents ++ nl)].
Proof.
  intros Ht Hch Hget. rewrite cmd_cd_target, Ht. unfold cd_chdir, cd_getcwd.
  rewrite Hch. cbn [cwd set_cwd current_dir]. rewrite Hget.
  repeat split. simpl. now rewrite <- app_assoc.
Qed.

Lemma cmd_cd_getcwd_failure_witness :
  fst (cmd_cd gone_kernel ["cd"; "/gone"] demo_shell) = EXIT_FAILURE /\
  cwd (snd (cmd_cd gone_kernel ["cd"; "/gone"] demo_shell)) = "/gone" /\
  current_dir (snd (cmd_cd gone_kernel ["cd"; "/gone"] demo_shell)) = "" /\
  trace (snd (cmd_cd gone_kernel ["cd"; "/gone"] demo_shell))
  = trace demo_shell ++ [PrintError ("getcwd: " ++ "No such file or directory")] /\
  trace (snd (cmd_pwd [] (snd (cmd_cd gone_kernel ["cd"; "/gone"] demo_shell))))
  = trace demo_shell
    ++ [PrintError ("getcwd: " ++ "No such file or directory"); Printf ("" ++ nl)].
Proof.
  apply (cmd_cd_getcwd_failure gone_kernel ["cd"; "/gone"] demo_shell "/gone"); reflexivity.
Defined.

Lemma search_path_some (K : Kernel) (wd cmd p : string) (dirs : list string) :
  search_path K wd dirs cmd = Some p ->
  exists dir, In dir dirs /\ p = full_path cmd dir /\ sys_access_x K wd p = true.
Proof.
  induction dirs as [|d dirs IH]; simpl; [discriminate |].
  destruct (sys_access_x K wd (full_path cmd d)) eqn:E.
  - intros H. injection H as <-. exists d. auto.
  - intros H. destruct (IH H) as [dir [Hin Hp]]. exists dir. auto.
Qed.

Lemma search_path_none (K : Kernel) (wd cmd : string) (dirs : list string) :
  search_path K wd dirs cmd = None ->
  forall dir, In dir dirs -> sys_access_x K wd (full_path cmd dir) = false.
Proof.
  induction dirs as [|d dirs IH]; simpl; [intros _ dir [] |].
  destruct (sys_access_x K wd (full_path cmd d)) eqn:E; [discriminate |].
  intros H dir [<- | Hin]; [exact E | now apply IH].
Qed.

(** X17: a path that [find_command] returns has passed the test for
    execute permission.  For a name with a [/] it is the name itself; for a
    bare name it is [dir/name] (cut to the size of the buffer) for a
    directory of the search path that is not the empty string, so that the
    working directory is not searched unless the path names it.  When
    NULL is returned, the test has failed for the name itself, or in every
    directory of the search path.  A bare name is searched for only when
    the text of the search path fits its buffer; otherwise, that is when
    [HOME] is longer than one character, [find_command] writes past the
    end of [new_path]. *)
Theorem find_command_sound (K : Kernel) (wd cmd : string) :
  (forall p,
      find_command K wd cmd = Found p ->
      sys_access_x K wd p = true /\
      (has_char "/" cmd = true -> p = cmd) /\
      (has_char "/" cmd = false ->
       new_path_overruns K = false /\
       exists dir,
         In dir (strtok is_colon (new_path K)) /\ dir <> "" /\ p = full_path cmd dir)) /\
  (find_command K wd cmd = NotFound ->
   (has_char "/" cmd = true -> sys_access_x K wd cmd = false) /\
   (has_char "/" cmd = false ->
    new_path_overruns K = false /\
    forall dir, In dir (strtok is_colon (new_path K)) ->
                sys_access_x K wd (full_path cmd dir) = false)) /\
  (find_command K wd cmd = Overrun <->
   has_char "/" cmd = false /\
   exists home, sys_getenv K "HOME" = Some home /\ 1 < String.length home).
Proof.
  split; [| split].
  - unfold find_command. destruct (has_char "/" cmd) eqn:Hsep.
    + destruct (sys_access_x K wd cmd) eqn:E; [| discriminate].
      intros p H. injection H as <-.
      split; [exact E |]. split; [reflexivity | discriminate].
    + destruct (new_path_overruns K); [discriminate |].
      destruct (search_path K wd (strtok is_colon (new_path K)) cmd) as [q|] eqn:Es;
        [| discriminate].
      intros p H. injection H as <-.
      destruct (search_path_some K wd cmd q _ Es) as [dir [Hin [Hp Hx]]].
      split; [exact Hx |]. split; [discriminate |].
      intros _. split; [reflexivity |]. exists dir. split; [exact Hin |]. split; [| exact Hp].
      pose proof (strtok_valid is_colon (new_path K)) as Hv.
      rewrite Forall_forall in Hv. specialize (Hv dir Hin).
      intros ->. discriminate Hv.
  - unfold find_command. destruct (has_char "/" cmd) eqn:Hsep.
    + destruct (sys_access_x K wd cmd) eqn:E; [discriminate |].
      intros _. split; [reflexivity | discriminate].
    + destruct (new_path_overruns K); [discriminate |].
      destruct (search_path K wd (strtok is_colon (new_path K)) cmd) as [q|] eqn:Es;
        [discriminate |].
      intros _. split; [discriminate |]. intros _. split; [reflexivity |].
      now apply search_path_none.
  - rewrite find_command_overrun, new_path_overruns_iff. reflexivity.
Qed.

Lemma find_command_sound_witness :
  sys_access_x root_kernel "/" "/usr/bin/ls" = true /\
  (new_path_overruns root_kernel = false /\
   forall dir, In dir (strtok is_colon (new_path root_kernel)) ->
               sys_access_x root_kernel "/" (full_path "frobnicate" dir) = false) /\
  find_command demo_kernel "/home/u" "ls" = Overrun.
Proof.
  split; [| split].
  - destruct (find_command_sound root_kernel "/" "ls") as [H _].
    apply (H "/usr/bin/ls"). reflexivity.
  - destruct (find_command_sound root_kernel "/" "frobnicate") as (_ & H & _).
    apply H; reflexivity.
  - destruct (find_command_sound demo_kernel "/home/u" "ls") as (_ & _ & H).
    apply H. split; [reflexivity |]. exists "/home/u". split; [reflexivity |].
    vm_compute. lia.
Defined.

(** X18: the path that [find_command] tests for a directory never exceeds
    the buffer: it has at most [MAX_PATH_LENGTH - 1] characters and is a
    prefix of [dir/cmd]; it is [dir/cmd] itself whenever that fits. *)
Theorem full_path_fits_buffer (cmd dir : string) :
  String.length (full_path cmd dir) <= MAX_PATH_LENGTH - 1 /\
  prefix (full_path cmd dir) (dir ++ "/" ++ cmd) = true /\
  (String.length dir + 1 + String.length cmd <= MAX_PATH_LENGTH - 1 ->
   full_path cmd dir = (dir ++ "/" ++ cmd)%string).
Proof.
  unfold full_path. split; [apply substring_0_length |].
  split; [apply substring_0_prefix |].
  intros H. apply substring_0_all. rewrite string_length_append.
  cbn [String.length append]. lia.
Qed.

Lemma full_path_fits_buffer_witness :
  full_path "ls" "/usr/bin" = ("/usr/bin" ++ "/" ++ "ls")%string.
Proof.
  destruct (full_path_fits_buffer "ls" "/usr/bin") as (_ & _ & H).
  apply H. vm_compute. lia.
Defined.

Lemma prefix_append (a b : string) : prefix a (a ++ b) = true.
Proof.
  induction a as [|c a IH]; simpl; [now destruct b |].
  destruct (ascii_dec c c); [exact IH | contradiction].
Qed.

Lemma drop_append (a b : string) : drop (String.length a) (a ++ b) = b.
Proof. induction a as [|c a IH]; simpl; [reflexivity | exact IH]. Qed.

(** X19: [get_short_path] replaces a leading home directory by [~]: a
    path [home ++ rest] becomes [~rest], whether or not [rest] starts at a
    [/]; a path that does not start with the home directory, or any path
    when [HOME] is unset, is returned as it is.  The result never exceeds
    the buffer. *)
Theorem get_short_path_home (K : Kernel) (path : string) :
  String.length (get_short_path K path) <= MAX_PATH_LENGTH - 1 /\
  (forall home rest,
      sys_getenv K "HOME" = Some home ->
      path = (home ++ rest)%string ->
      String.length rest < MAX_PATH_LENGTH - 1 ->
      get_short_path K path = ("~" ++ rest)%string) /\
  (forall home,
      sys_getenv K "HOME" = Some home ->
      prefix home path = false ->
      String.length path <= MAX_PATH_LENGTH - 1 ->
      get_short_path K path = path) /\
  (sys_getenv K "HOME" = None ->
   String.length path <= MAX_PATH_LENGTH - 1 ->
   get_short_path K path = path).
Proof.
  unfold get_short_path. split; [| split; [| split]].
  - destruct (sys_getenv K "HOME") as [home|]; [destruct (prefix home path) |];
      apply substring_0_length.
  - intros home rest Hhome -> Hlen. rewrite Hhome, prefix_append, drop_append.
    apply substring_0_all. cbn [String.length append]. lia.
  - intros home Hhome Hpre Hlen. rewrite Hhome, Hpre. now apply substring_0_all.
  - intros Hhome Hlen. rewrite Hhome. now apply substring_0_all.
Qed.

Lemma get_short_path_home_witness :
  get_short_path demo_kernel "/home/u/src" = ("~" ++ "/src")%string /\
  get_short_path demo_kernel "/home/user2" = ("~" ++ "ser2")%string /\
  get_short_path demo_kernel "/tmp" = "/tmp".
Proof.
  split; [| split].
  - destruct (get_short_path_home demo_kernel "/home/u/src") as (_ & H & _).
    apply (H "/home/u" "/src"); [reflexivity | reflexivity | vm_compute; lia].
  - destruct (get_short_path_home demo_kernel "/home/user2") as (_ & H & _).
    apply (H "/home/u" "ser2"); [reflexivity | reflexivity | vm_compute; lia].
  - destruct (get_short_path_home demo_kernel "/tmp") as (_ & _ & H & _).
    apply (H "/home/u"); [reflexivity | reflexivity | vm_compute; lia].
Defined.

Lemma land_low_bits (mode b : Z) :
  Z.land 511 b = b -> Z.land (Z.land mode 511) b = Z.land mode b.
Proof. intros H. now rewrite <- Z.land_assoc, H. Qed.

Lemma get_permissions_low_bits (mode : Z) :
  get_permissions mode = get_permissions (Z.land mode 511).
Proof.
  unfold get_permissions, perm_triple, perm_char.
  cbn [Nat.mul Nat.sub Nat.add Z.of_nat Pos.of_succ_nat Pos.succ Z.shiftl Pos.iter
       Z.mul Pos.mul nth].
  rewrite !land_low_bits by reflexivity. reflexivity.
Qed.

(** X20: [get_permissions] writes nine characters that stand for the
    nine low bits of the mode and for nothing else: reading the string
    back, a bit for every character that is not [-], gives the mode
    masked with octal 777. *)
Theorem get_permissions_round_trip (mode : Z) :
  String.length (get_permissions mode) = 9 /\
  perms_mode (get_permissions mode) = Z.land mode 511 /\
  get_permissions mode = get_permissions (Z.land mode 511).
Proof.
  split; [reflexivity |]. split; [| apply get_permissions_low_bits].
  rewrite get_permissions_low_bits.
  assert (Hall : forallb (fun n => (perms_mode (get_permissions (Z.of_nat n)) =? Z.of_nat n)%Z)
                         (seq 0 512) = true) by (vm_compute; reflexivity).
  rewrite forallb_forall in Hall.
  assert (Hr : (0 <= Z.land mode 511 < 512)%Z).
  { change 511%Z with (Z.ones 9). rewrite Z.land_ones by lia.
    apply Z.mod_pos_bound. reflexivity. }
  specialize (Hall (Z.to_nat (Z.land mode 511))).
  rewrite Z2Nat.id in Hall by lia.
  apply Z.eqb_eq, Hall, in_seq. lia.
Qed.

Local Open Scope Z_scope.

(** X21: job ids are the positions in the table, from 1 on: [get_job]
    answers exactly for the ids from 1 to [job_count]; a job that
    [add_job] records gets the id [job_count + 1], and the ids of the jobs
    recorded before stay what they were. *)
Theorem get_job_ids (sh : Shell) :
  (forall id, get_job id sh = None <-> id <= 0 \/ Z.of_nat (job_count (config sh)) < id) /\
  (forall p cmd,
      (job_count (config sh) < MAX_ARGS)%nat ->
      get_job (Z.of_nat (job_count (config sh)) + 1) (add_job p cmd sh)
      = Some (mkJob p cmd 0 true)) /\
  (forall id j p cmd,
      get_job id sh = Some j -> get_job id (add_job p cmd sh) = Some j).
Proof.
  split; [| split].
  - intros id. unfold get_job, job_count.
    destruct (Z.leb_spec id 0) as [H0 | H0]; cbn [orb]; [split; auto |].
    destruct (Z.ltb_spec (Z.of_nat (length (jobs (config sh)))) id) as [H1 | H1];
      [split; auto |].
    rewrite nth_error_None. split; lia.
  - intros p cmd Hroom. rewrite (add_job_room p cmd sh Hroom).
    unfold get_job, job_count. cbn [set_jobs set_config config jobs].
    rewrite length_app. cbn [length].
    destruct (Z.leb_spec (Z.of_nat (length (jobs (config sh))) + 1) 0); [lia |].
    destruct (Z.ltb_spec (Z.of_nat (length (jobs (config sh)) + 1))
                         (Z.of_nat (length (jobs (config sh))) + 1)); [lia |].
    cbn [orb]. rewrite nth_error_app2 by lia.
    replace (Z.to_nat (Z.of_nat (length (jobs (config sh))) + 1 - 1)
             - length (jobs (config sh)))%nat with 0%nat by lia.
    reflexivity.
  - intros id j p cmd. unfold get_job, job_count, add_job.
    destruct (Z.leb_spec id 0); cbn [orb]; [discriminate |].
    destruct (Z.ltb_spec (Z.of_nat (length (jobs (config sh)))) id); [discriminate |].
    intros Hj.
    destruct (MAX_ARGS <=? job_count (config sh))%nat.
    + cbn [print_error emit config].
      destruct (Z.leb_spec id 0); [lia |].
      destruct (Z.ltb_spec (Z.of_nat (length (jobs (config sh)))) id); [lia |].
      exact Hj.
    + cbn [set_jobs set_config config jobs]. rewrite length_app. cbn [length].
      destruct (Z.leb_spec id 0); [lia |].
      destruct (Z.ltb_spec (Z.of_nat (length (jobs (config sh)) + 1)) id); [lia |].
      cbn [orb]. rewrite nth_error_app1 by lia. exact Hj.
Qed.

Lemma get_job_ids_witness :
  get_job (Z.of_nat (job_count (config demo_shell)) + 1) (add_job 42 "sleep 5" demo_shell)
  = Some (mkJob 42 "sleep 5" 0 true) /\
  get_job 1 (add_job 43 "sleep 9" (add_job 42 "sleep 5" demo_shell))
  = Some (mkJob 42 "sleep 5" 0 true).
Proof.
  split.
  - destruct (get_job_ids demo_shell) as (_ & H & _). apply H. vm_compute. lia.
  - destruct (get_job_ids (add_job 42 "sleep 5" demo_shell)) as (_ & _ & H).
    apply H. reflexivity.
Defined.

Local Close Scope Z_scope.

Lemma update_job_account (i : nat) (j : Job) (ps : Z -> pstate) :
  let j1 := fst (fst (update_job i j ps)) in
  let o := snd (fst (update_job i j ps)) in
  length o + (if running j1 then 1 else 0) = (if running j then 1 else 0) /\
  (running j1 = true -> j1 = j) /\
  (forall x, In x o -> exists text, x = Printf text).
Proof.
  assert (Hsame : forall ps' : Z -> pstate,
             length (snd (fst (j, @nil output, ps')))
             + (if running (fst (fst (j, @nil output, ps'))) then 1 else 0)
             = (if running j then 1 else 0) /\
             (running (fst (fst (j, @nil output, ps'))) = true ->
              fst (fst (j, @nil output, ps')) = j) /\
             (forall x, In x (snd (fst (j, @nil output, ps'))) ->
                        exists text, x = Printf text)).
  { intros ps'. cbn [fst snd length]. split; [reflexivity |].
    split; [reflexivity | intros x []]. }
  assert (Hdone : forall (j' : Job) (text : string) (ps' : Z -> pstate),
             running j = true -> running j' = false ->
             length (snd (fst (j', [Printf text], ps')))
             + (if running (fst (fst (j', [Printf text], ps'))) then 1 else 0)
             = (if running j then 1 else 0) /\
             (running (fst (fst (j', [Printf text], ps'))) = true ->
              fst (fst (j', [Printf text], ps')) = j) /\
             (forall x, In x (snd (fst (j', [Printf text], ps'))) ->
                        exists text', x = Printf text')).
  { intros j' text ps' Hr Hr'. cbn [fst snd length]. rewrite Hr, Hr'.
    split; [reflexivity |]. split; [discriminate |].
    intros x [<- | []]. eauto. }
  cbv zeta. unfold update_job, waitpid_nohang.
  destruct (negb (running j)) eqn:Hn; [apply Hsame |].
  apply negb_false_iff in Hn.
  destruct (ps (pid j)); cbv beta iota zeta.
  - change (0 =? 0)%Z with true. cbv iota. apply Hsame.
  - destruct (pid j =? 0)%Z; [apply Hsame |].
    rewrite Z.eqb_refl. apply Hdone; [exact Hn | reflexivity].
  - change (-1 =? 0)%Z with false. cbv iota.
    destruct (-1 =? pid j)%Z; [apply Hdone; [exact Hn | reflexivity] | apply Hsame].
Qed.

Lemma update_jobs_from_account (js : list Job) :
  forall (i : nat) (ps : Z -> pstate),
    let '(r, o, _) := update_jobs_from i js ps in
    length o + count_running r = count_running js /\
    (forall n j', nth_error r n = Some j' -> running j' = true -> nth_error js n = Some j') /\
    (forall x, In x o -> exists text, x = Printf text).
Proof.
  induction js as [|j js IH]; intros i ps.
  - simpl. split; [reflexivity |]. split; [intros [|n] j' H; discriminate H | intros x []].
  - cbn [update_jobs_from].
    pose proof (update_job_account i j ps) as H1. cbv zeta in H1.
    destruct (update_job i j ps) as [[j1 o1] ps1]. cbn [fst snd] in H1.
    specialize (IH (S i) ps1).
    destruct (update_jobs_from (S i) js ps1) as [[r o] ps2].
    destruct H1 as (Hc1 & Hr1 & Ho1). destruct IH as (Hc & Hr & Ho).
    split; [| split].
    + rewrite length_app. unfold count_running in *. cbn [filter].
      destruct (running j1), (running j); cbn [length] in *; lia.
    + intros [|n] j' Hn Hrun; cbn [nth_error] in *.
      * injection Hn as <-. now rewrite (Hr1 Hrun).
      * now apply Hr.
    + intros x Hx. apply in_app_or in Hx. destruct Hx; auto.
Qed.

(** X22: a sweep of [update_jobs] writes one line for each job that it
    turns from running to finished and nothing else; a job that is running
    after the sweep is unchanged, so that a finished job is never running
    again and is never announced a second time. *)
Theorem update_jobs_announces_once (sh : Shell) :
  exists o,
    trace (update_jobs sh) = trace sh ++ o /\
    length o + count_running (jobs (config (update_jobs sh)))
    = count_running (jobs (config sh)) /\
    (forall x, In x o -> exists text, x = Printf text) /\
    (forall n j',
        nth_error (jobs (config (update_jobs sh))) n = Some j' ->
        running j' = true ->
        nth_error (jobs (config sh)) n = Some j').
Proof.
  unfold update_jobs.
  pose proof (update_jobs_from_account (jobs (config sh)) 0 (procs sh)) as H.
  destruct (update_jobs_from 0 (jobs (config sh)) (procs sh)) as [[js o] ps].
  destruct H as (Hc & Hr & Ho).
  exists o. cbn [trace set_procs emit set_jobs set_config config jobs].
  repeat split; assumption.
Qed.

Lemma update_jobs_announces_once_witness :
  nth_error (jobs (config (set_procs demo_procs (add_job 43 "sleep 9" demo_shell)))) 0
  = Some (mkJob 43 "sleep 9" 0 true).
Proof.
  destruct (update_jobs_announces_once
              (set_procs demo_procs (add_job 43 "sleep 9" demo_shell)))
    as [o (_ & _ & _ & H)].
  apply H; reflexivity.
Defined.

Local Open Scope Z_scope.

(** X23: [update_jobs] takes the exit code out of the wait status without
    asking how the process ended.  A running job, anywhere in the table,
    whose process was killed by a signal (so that it did not exit, and its
    wait status is below 256) is recorded by the sweep as finished with
    status 0, the same entry as for a process that exited with code 0, and
    the sweep writes the line that announces it as a success. *)
Theorem signalled_job_recorded_as_success (sh : Shell) (js js' : list Job) (j : Job)
        (wstatus : Z) :
  jobs (config sh) = (js ++ j :: js')%list ->
  running j = true ->
  0 < pid j ->
  WIFSIGNALED wstatus = true ->
  0 <= wstatus < 256 ->
  (forall j0, In j0 js -> running j0 = true -> 0 < pid j0 /\ pid j0 <> pid j) ->
  procs sh (pid j) = PZombie wstatus ->
  WIFEXITED wstatus = false /\
  nth_error (jobs (config (update_jobs sh))) (length js)
  = Some (mkJob (pid j) (command j) 0 false) /\
  In (Printf ("[" ++ uint_string (length js + 1) ++ "] " ++ command j
                  ++ " Done (success)" ++ nl)%string)
     (trace (update_jobs sh)).
Proof.
  intros Hjobs Hrun Hp Hsig Hw Hpids Hps.
  split; [exact (WIFSIGNALED_not_exited wstatus Hsig) |].
  assert (Huniq : forall j0, In j0 js -> running j0 = true -> pid j0 <> pid j)
    by (intros j0 Hj Hr; now apply Hpids).
  rewrite jobs_update_jobs, trace_update_jobs, Hjobs.
  pose proof (update_jobs_from_reaps js js' j (procs sh) wstatus 0 Hrun Hp Hps Huniq) as H.
  pose proof (update_jobs_from_reaps_output js js' j (procs sh) wstatus 0
                                            Hrun Hp Hps Huniq) as Ho.
  rewrite (WEXITSTATUS_signal wstatus Hw) in H, Ho.
  split; [exact H |]. apply in_or_app. right. exact Ho.
Qed.

Lemma signalled_job_recorded_as_success_witness :
  let sh := set_procs (fun q => if q =? 7 then PZombie 9 else PRunning)
                      (add_job 7 "sleep 100" (add_job 6 "sleep 50" demo_shell)) in
  WIFEXITED 9 = false /\
  nth_error (jobs (config (update_jobs sh))) (length [mkJob 6 "sleep 50" 0 true])
  = Some (mkJob 7 "sleep 100" 0 false) /\
  In (Printf ("[" ++ uint_string (length [mkJob 6 "sleep 50" 0 true] + 1) ++ "] "
                  ++ "sleep 100" ++ " Done (success)" ++ nl)%string)
     (trace (update_jobs sh)).
Proof.
  cbv zeta.
  apply (signalled_job_recorded_as_success _ [mkJob 6 "sleep 50" 0 true] []
                                           (mkJob 7 "sleep 100" 0 true) 9).
  - reflexivity.
  - reflexivity.
  - simpl. lia.
  - reflexivity.
  - lia.
  - intros j0 [<- | []] _. simpl. lia.
  - reflexivity.
Defined.

Local Close Scope Z_scope.

Lemma main_loop_stopped (K : Kernel) (lines : list string) (sh : Shell) :
  running_flag sh = false -> main_loop K lines sh = Some sh.
Proof. intros H. destruct lines; simpl; [reflexivity | now rewrite H]. Qed.

Lemma main_loop_app (K : Kernel) (l1 l2 : list string) :
  forall sh,
    main_loop K (l1 ++ l2) sh
    = match main_loop K l1 sh with
      | Some sh1 => main_loop K l2 sh1
      | None => None
      end.
Proof.
  induction l1 as [|line l1 IH]; intros sh; simpl; [reflexivity |].
  destruct (running_flag sh) eqn:E.
  - destruct (shell_cycle K line sh) as [sh1|]; [apply IH | reflexivity].
  - now rewrite main_loop_stopped.
Qed.

(** X24: the session ends with [exit].  The line [exit], when [exit] is
    not an alias, clears the [running] flag and is recorded in the
    history; once the flag is cleared no further line is read, so the
    lines behind it are neither run nor recorded; and sessions compose:
    running [l1 ++ l2] is running [l1] and then [l2]. *)
Theorem main_loop_stops_at_exit (K : Kernel) (sh : Shell) :
  (forall l1 l2,
      main_loop K (l1 ++ l2) sh
      = match main_loop K l1 sh with
        | Some sh1 => main_loop K l2 sh1
        | None => None
        end) /\
  (forall l1 l2 sh1,
      main_loop K l1 sh = Some sh1 ->
      running_flag sh1 = false ->
      main_loop K (l1 ++ l2) sh = Some sh1) /\
  (forall rest,
      running_flag sh = true ->
      get_alias "exit" sh = None ->
      exists sh',
        main_loop K ("exit" :: rest) sh = Some sh' /\
        main_loop K ["exit"] sh = Some sh' /\
        running_flag sh' = false /\
        history sh' = history sh ++ ["exit"]).
Proof.
  split; [intros l1 l2; apply main_loop_app |]. split.
  - intros l1 l2 sh1 H1 H. rewrite main_loop_app, H1. now apply main_loop_stopped.
  - intros rest Hrun Hno.
    assert (Hcycle : exists sh', shell_cycle K "exit" sh = Some sh' /\
                                 running_flag sh' = false /\
                                 history sh' = history sh ++ ["exit"]).
    { unfold shell_cycle. change (trim_whitespace "exit") with "exit".
      cbn [String.eqb Ascii.eqb Bool.eqb andb].
      unfold execute_command. cbn [String.eqb Ascii.eqb Bool.eqb andb].
      change (parse_command "exit") with ["exit"]. unfold resolve_alias.
      rewrite get_alias_add_to_history, Hno.
      change (dispatch K ["exit"] (add_to_history "exit" sh))
        with (Some (EXIT_SUCCESS, set_running false (add_to_history "exit" sh))).
      eexists. split; [reflexivity |].
      destruct (update_jobs_state (set_running false (add_to_history "exit" sh)))
        as (_ & _ & Hr & Hh).
      rewrite Hr, Hh. split; reflexivity. }
    destruct Hcycle as (sh' & Hc & Hflag & Hhist).
    exists sh'. cbn [main_loop]. rewrite Hrun, Hc.
    rewrite (main_loop_stopped K rest sh' Hflag). auto.
Qed.

Lemma main_loop_stops_at_exit_witness :
  main_loop root_kernel (["ls"; "exit"] ++ ["ls"; "cd /tmp"]) root_shell
  = main_loop root_kernel ["ls"; "exit"] root_shell /\
  exists sh',
    main_loop root_kernel ["exit"; "ls"] root_shell = Some sh' /\
    main_loop root_kernel ["exit"] root_shell = Some sh' /\
    running_flag sh' = false /\
    history sh' = history root_shell ++ ["exit"].
Proof.
  destruct (main_loop_stops_at_exit root_kernel root_shell) as (_ & H1 & H2).
  split.
  - destruct (main_loop root_kernel ["ls"; "exit"] root_shell) as [sh1|] eqn:E;
      [| discriminate E].
    apply H1; [exact E |].
    apply (f_equal (option_map running_flag)) in E. vm_compute in E. now injection E.
  - apply (H2 ["ls"]); reflexivity.
Defined.

Lemma update_jobs_no_jobs (sh : Shell) :
  jobs (config sh) = [] ->
  jobs (config (update_jobs sh)) = [] /\ trace (update_jobs sh) = trace sh.
Proof.
  intros H. unfold update_jobs. rewrite H. simpl. split; [reflexivity | apply app_nil_r].
Qed.

(** X25: no job is ever recorded in a session.  From the state that
    [initialize_shell] sets up, whatever the lines, the job table is empty
    at the end, and the sweep that follows each command writes nothing:
    the trace of a turn is the trace of its command. *)
Theorem session_records_no_job (K : Kernel) :
  (forall wd hist lines,
      match main_loop K lines (initial_shell wd hist) with
      | Some sh' => jobs (config sh') = []
      | None => new_path_overruns K = true
      end) /\
  (forall sh line,
      jobs (config sh) = [] ->
      line <> "" ->
      trim_whitespace line <> "" ->
      option_map trace (shell_cycle K line sh)
      = option_map (fun r => trace (snd r)) (execute_command K (trim_whitespace line) sh)).
Proof.
  split.
  - intros wd hist lines. apply result_or_overrun; [apply main_loop_none |].
    intros sh'. apply (main_loop_invariant K (fun sh => jobs (config sh) = [])).
    + intros sh command r H Hr. now rewrite (jobs_execute_command K command sh r Hr).
    + intros sh H. now apply update_jobs_no_jobs.
    + reflexivity.
  - intros sh line Hjobs Hline Htrim. unfold shell_cycle.
    apply String.eqb_neq in Hline. apply String.eqb_neq in Htrim. rewrite Hline, Htrim.
    destruct (execute_command K (trim_whitespace line) sh) as [[st sh1]|] eqn:E;
      [| reflexivity].
    cbn [option_map snd]. f_equal. apply update_jobs_no_jobs.
    pose proof (jobs_execute_command K _ sh _ E) as Hj. cbn [snd] in Hj. congruence.
Qed.

Lemma session_records_no_job_witness :
  option_map trace (shell_cycle root_kernel " ls " root_shell)
  = option_map (fun r => trace (snd r))
               (execute_command root_kernel (trim_whitespace " ls ") root_shell).
Proof.
  destruct (session_records_no_job root_kernel) as [_ H].
  apply H; [reflexivity | discriminate | discriminate].
Defined.

Local Open Scope Z_scope.

(** X26: the status of a line that runs a program is the exit code of
    the program; when the program is killed by a signal it is
    [EXIT_FAILURE], and when [execv] fails in the child it is
    [EXIT_NOT_FOUND], the same status as for a command that was not
    found. *)
Theorem external_command_status (K : Kernel) (command a0 p : string)
        (rest : list string) (sh : Shell) :
  parse_command command = a0 :: rest ->
  get_alias a0 sh = None ->
  ~ In a0 builtin_names ->
  find_command K (cwd sh) a0 = Found p ->
  (forall code,
      0 <= code < 256 ->
      sys_spawn K (cwd sh) p (a0 :: rest) = Terminated (W_EXITCODE code) ->
      option_map fst (execute_command K command sh) = Some code) /\
  (forall wstatus,
      WIFSIGNALED wstatus = true ->
      sys_spawn K (cwd sh) p (a0 :: rest) = Terminated wstatus ->
      option_map fst (execute_command K command sh) = Some EXIT_FAILURE) /\
  (forall err,
      sys_spawn K (cwd sh) p (a0 :: rest) = ExecFailed err ->
      execute_command K command sh
      = Some (EXIT_NOT_FOUND,
              print_error (a0 ++ ": execution failed: " ++ err)
                          (add_to_history command sh))).
Proof.
  intros Hparse Halias Hno Hfind. split; [| split].
  - intros code Hcode Hspawn.
    rewrite (execute_command_external K command a0 p rest _ sh Hparse Halias Hno Hfind Hspawn).
    cbn [option_map fst]. now rewrite (W_EXITCODE_exited code Hcode), WEXITSTATUS_W_EXITCODE.
  - intros wstatus Hsig Hspawn.
    rewrite (execute_command_external K command a0 p rest _ sh Hparse Halias Hno Hfind Hspawn).
    cbn [option_map fst]. now rewrite (WIFSIGNALED_not_exited wstatus Hsig).
  - intros err Hspawn. unfold execute_command.
    destruct (String.eqb_spec command "") as [-> | _]; [discriminate Hparse |].
    rewrite Hparse. unfold resolve_alias.
    rewrite get_alias_add_to_history, Halias, (dispatch_other K a0 rest _ Hno).
    unfold execute_external. now rewrite cwd_add_to_history, Hfind, Hspawn.
Qed.

Lemma external_command_status_witness :
  option_map fst (execute_command demo_kernel "/bin/ls -la" demo_shell) = Some 0.
Proof.
  assert (Hno : ~ In "/bin/ls" builtin_names).
  { simpl. intros F. repeat (destruct F as [F | F]; [discriminate F |]). exact F. }
  destruct (external_command_status demo_kernel "/bin/ls -la" "/bin/ls" "/bin/ls" ["-la"]
                                    demo_shell eq_refl eq_refl Hno eq_refl) as [H _].
  apply H; [lia | reflexivity].
Defined.

Local Close Scope Z_scope.

Lemma history_lines_length (h : list string) :
  forall i, length (history_lines i h) = length h.
Proof. induction h as [|line h IH]; intros i; simpl; [reflexivity | now rewrite IH]. Qed.

Lemma history_lines_app (h1 h2 : list string) :
  forall i, history_lines i (h1 ++ h2)
            = history_lines i h1 ++ history_lines (i + length h1) h2.
Proof.
  induction h1 as [|line h1 IH]; intros i; simpl.
  - now rewrite Nat.add_0_r.
  - rewrite IH. now replace (S i + length h1) with (i + S (length h1)) by lia.
Qed.

(** X27: the [history] builtin lists the line that called it.  The line
    is recorded before it is dispatched, so the output has one numbered
    line for each line recorded before and a last one for the [history]
    line itself. *)
Theorem history_lists_itself (K : Kernel) (command : string) (rest : list string)
        (sh : Shell) :
  parse_command command = "history" :: rest ->
  get_alias "history" sh = None ->
  execute_command K command sh
  = Some (EXIT_SUCCESS,
          emit (history_lines 0 (history sh)
                ++ [Printf (pad5 (length (history sh) + 1) ++ "  " ++ command ++ nl)])
               (add_to_history command sh)) /\
  length (history_lines 0 (history sh ++ [command])) = S (length (history sh)).
Proof.
  intros Hparse Halias. split.
  - rewrite (execute_command_dispatch K command sh) by (intros ->; discriminate Hparse).
    rewrite Hparse. unfold resolve_alias. rewrite Halias.
    unfold dispatch.
    change (execute_builtin K ("history" :: rest) (add_to_history command sh))
      with (cmd_history ("history" :: rest) (add_to_history command sh)).
    unfold cmd_history. cbn [fst snd EXIT_SUCCESS EXIT_NOT_FOUND Z.eqb].
    assert (Hadd : add_to_history command sh = set_history (history sh ++ [command]) sh).
    { unfold add_to_history.
      destruct (String.eqb_spec command "") as [-> | _]; [discriminate Hparse | reflexivity]. }
    rewrite Hadd. cbn [history set_history]. rewrite history_lines_app. reflexivity.
  - rewrite history_lines_length, length_app. simpl. lia.
Qed.

Lemma history_lists_itself_witness :
  execute_command demo_kernel "history" demo_shell
  = Some (EXIT_SUCCESS,
          emit (history_lines 0 (history demo_shell)
                ++ [Printf (pad5 (length (history demo_shell) + 1) ++ "  " ++ "history" ++ nl)])
               (add_to_history "history" demo_shell)) /\
  length (history_lines 0 (history demo_shell ++ ["history"]))
  = S (length (history demo_shell)).
Proof. apply (history_lists_itself demo_kernel "history" []); reflexivity. Defined.
